(** * Careerly backend: the real-time messaging core

    A shallow embedding of the chat part of the backend
    ([server.js], [models/Conversation.js], [routes/chat.js]) and the
    properties of its message dispatch, read receipts, presence registry,
    connection authentication and message history read.

    Conventions.
    - A JavaScript string is the list of its UTF-16 code units.  The store
      keeps a string in UTF-8: a string read back from it has U+FFFD in the
      place of every unpaired surrogate ([toWellFormed]).
    - An ObjectId is represented by its 24 lower-case hexadecimal digits
      ([_id.toString()]).  A value given where the schema has an ObjectId is
      cast ([castObjectId], [castId], [castQuery]); a value that does not
      cast makes the store call it is given to reject.
    - A value of a payload is any JSON value; a number of a payload is an
      integer.
    - A date is an integer number of milliseconds.
    - A collection of the store is the list of its documents in insertion
      order.
    - A handler runs as one transition of the server: the store calls it
      awaits are not interleaved with other handlers.
    - The document store, the token library and the socket transport are the
      environment.  Every awaited store call may reject; which ones do is
      part of the environment of a run ([rejects]). *)

From stdpp Require Import gmap list sorting pretty.
From Stdlib Require Import ZArith NArith Ascii String.

Local Open Scope Z_scope.

(** ** JavaScript values and strings *)

Module Js.

Abbreviation jstring := (list N).

(** A literal of the source, as code units. *)
Definition str (s : string) : jstring :=
  N_of_ascii <$> list_ascii_of_string s.
Arguments str : simpl never.

(** The values a client can put in an event payload: what [JSON.parse]
    gives, and [undefined] for a field that is left out.  The fields of an
    object are in the order of the text; of two fields with the same key the
    later one counts. *)
#[warning="-register-all"]
Inductive JsVal : Type :=
| JUndefined
| JNull
| JBool (b : bool)
| JNum (z : Z)
| JStr (s : jstring)
| JArr (items : list JsVal)
| JObj (fields : list (jstring * JsVal)).

#[global] Instance JsVal_eq_dec : EqDecision JsVal.
Proof.
  refine (fix go (a b : JsVal) {struct a} : Decision (a = b) :=
    match a, b with
    | JUndefined, JUndefined => left eq_refl
    | JNull, JNull => left eq_refl
    | JBool x, JBool y => cast_if (decide (x = y))
    | JNum x, JNum y => cast_if (decide (x = y))
    | JStr x, JStr y => cast_if (decide (x = y))
    | JArr x, JArr y =>
        cast_if ((fix items (l k : list JsVal) {struct l} : Decision (l = k) :=
           match l, k with
           | [], [] => left eq_refl
           | u :: l', v :: k' => cast_if_and (go u v) (items l' k')
           | _, _ => right _
           end) x y)
    | JObj x, JObj y =>
        cast_if ((fix fields (l k : list (jstring * JsVal)) {struct l}
                    : Decision (l = k) :=
           match l, k with
           | [], [] => left eq_refl
           | (n, u) :: l', (m, v) :: k' =>
               cast_if_and3 (decide (n = m)) (go u v) (fields l' k')
           | _, _ => right _
           end) x y)
    | _, _ => right _
    end); congruence.
Defined.

(** [ToBoolean]: what [!v] negates. *)
Definition truthy (v : JsVal) : bool :=
  match v with
  | JUndefined | JNull => false
  | JBool b => b
  | JNum z => negb (z =? 0)
  | JStr s => negb (bool_decide (s = []))
  | JArr _ | JObj _ => true
  end.

(** [WhiteSpace] and [LineTerminator] code points, the ones
    [String.prototype.trim] strips. *)
Definition isWhiteSpace (c : N) : bool :=
  (bool_decide (c ∈ [9; 10; 11; 12; 13; 32; 160; 5760; 8232; 8233; 8239;
                     8287; 12288; 65279]%N)
   || ((8192 <=? c) && (c <=? 8202)))%N.

Fixpoint trimStart (s : jstring) : jstring :=
  match s with
  | [] => []
  | c :: s' => if isWhiteSpace c then trimStart s' else s
  end.

Definition trimEnd (s : jstring) : jstring :=
  reverse (trimStart (reverse s)).

Definition trim (s : jstring) : jstring := trimEnd (trimStart s).

(** [a === b] where [a] is a string. *)
Definition strictEqStr (a : jstring) (b : JsVal) : bool :=
  match b with
  | JStr s => bool_decide (a = s)
  | _ => false
  end.

(** Comparison of strings by code units, the order of [Array.prototype.sort]
    without a comparator. *)
Fixpoint ltb (a b : jstring) : bool :=
  match a, b with
  | _, [] => false
  | [], _ :: _ => true
  | x :: a', y :: b' =>
      if (x <? y)%N then true
      else if (y <? x)%N then false
      else ltb a' b'
  end.

(** [[a, b].sort()]: the sort is stable, so the pair is swapped only when
    the second is strictly smaller. *)
Definition sort2 (a b : jstring) : list jstring :=
  if ltb b a then [b; a] else [a; b].

(** A text made of white space only. *)
Definition blank (s : jstring) : bool := forallb isWhiteSpace s.

(** [`${v}`], [String(v)], [v.toString()]: the string made of a value.  An
    array is the strings of its elements with commas between them, a
    [null] or [undefined] element giving the empty string. *)
Fixpoint toStr (v : JsVal) : jstring :=
  match v with
  | JUndefined => str "undefined"
  | JNull => str "null"
  | JBool true => str "true"
  | JBool false => str "false"
  | JNum z => str (pretty z)
  | JStr s => s
  | JArr items =>
      (fix join (l : list JsVal) : jstring :=
         match l with
         | [] => []
         | x :: l' =>
             match x with
             | JUndefined | JNull => []
             | _ => toStr x
             end ++ match l' with
                    | [] => []
                    | _ :: _ => 44%N :: join l'
                    end
         end) items
  | JObj _ => str "[object Object]"
  end.

(** The value of the field [k] of an object. *)
Definition getField (k : jstring) (fields : list (jstring * JsVal))
    : option JsVal :=
  snd <$> List.find (λ f, bool_decide (f.1 = k)) (reverse fields).

(** Surrogate code units. *)
Definition isHighSurrogate (c : N) : bool := ((55296 <=? c) && (c <=? 56319))%N.
Definition isLowSurrogate (c : N) : bool := ((56320 <=? c) && (c <=? 57343))%N.

(** The string read back after a passage through UTF-8: a surrogate that
    is not part of a pair has become U+FFFD. *)
Fixpoint toWellFormed (s : jstring) : jstring :=
  match s with
  | [] => []
  | c :: s' =>
      if isHighSurrogate c then
        match s' with
        | d :: s'' =>
            if isLowSurrogate d then c :: d :: toWellFormed s''
            else 65533%N :: toWellFormed s'
        | [] => [65533%N]
        end
      else if isLowSurrogate c then 65533%N :: toWellFormed s'
      else c :: toWellFormed s'
  end.

(** The string has no unpaired surrogate. *)
Fixpoint noLoneSurrogate (s : jstring) : bool :=
  match s with
  | [] => true
  | c :: s' =>
      if isHighSurrogate c then
        match s' with
        | d :: s'' => isLowSurrogate d && noLoneSurrogate s''
        | [] => false
        end
      else negb (isLowSurrogate c) && noLoneSurrogate s'
  end.

End Js.

Import Js.


(** ** Documents of the store *)

(** [models/User.js], the fields the messaging core reads.  [password] is
    [None] on a document loaded with [select('-password')]. *)
Record User : Type := {
  user_id : jstring;
  name : jstring;
  email : jstring;
  password : option jstring;
  profilePicture : jstring;
  connections : list jstring;
}.

(** [models/Conversation.js], with the two dates of [timestamps: true]. *)
Record Conversation : Type := {
  conv_id : jstring;
  participants : list jstring;
  lastMessage : option jstring;
  lastMessageAt : Z;
  conv_createdAt : Z;
  conv_updatedAt : Z;
}.

(** Modelled from the spec: the schema of [models/Message.js], which the
    handlers construct and query but which is not among the sources.  The
    spec gives a Message a unique ID, the owning Conversation ID, the sender
    user ID, the text, a read flag that is false on creation, an optional
    read timestamp and a creation timestamp.  The schema's validators (the
    bound on the length of the text) are part of what makes [save] reject. *)
Record Message : Type := {
  msg_id : jstring;
  conversation : jstring;
  sender : jstring;
  text : jstring;
  read : bool;
  readAt : option Z;
  createdAt : Z;
}.

(** The sender as [populate('sender', 'name profilePicture')] leaves it:
    the selected fields of the user, or [null] when the user is gone. *)
Record SenderInfo : Type := {
  si_id : jstring;
  si_name : jstring;
  si_profilePicture : jstring;
}.

Record Populated : Type := {
  doc : Message;
  populatedSender : option SenderInfo;
}.

#[global] Instance User_eq_dec : EqDecision User.
Proof. solve_decision. Defined.
#[global] Instance Conversation_eq_dec : EqDecision Conversation.
Proof. solve_decision. Defined.
#[global] Instance Message_eq_dec : EqDecision Message.
Proof. solve_decision. Defined.
#[global] Instance SenderInfo_eq_dec : EqDecision SenderInfo.
Proof. solve_decision. Defined.
#[global] Instance Populated_eq_dec : EqDecision Populated.
Proof. solve_decision. Defined.

(** ** ObjectIds and their casts *)

Definition isHexDigit (c : N) : bool :=
  (((48 <=? c) && (c <=? 57)) || ((65 <=? c) && (c <=? 70))
   || ((97 <=? c) && (c <=? 102)))%N.

Definition lowerHex (c : N) : N :=
  if ((65 <=? c) && (c <=? 70))%N then (c + 32)%N else c.

(** [new ObjectId(s)] of a string: 24 hexadecimal digits, in either case,
    give the id; anything else throws. *)
Definition castObjectId (s : jstring) : option jstring :=
  if (List.length s =? 24)%nat && forallb isHexDigit s
  then Some (lowerHex <$> s) else None.

(** The cast to ObjectId of a value that is not [null]: the [_id] of the
    value if it has one that is truthy, else the value, is turned into a
    string and that string into an id.  [None] when the cast throws. *)
Definition castId (v : JsVal) : option jstring :=
  match v with
  | JUndefined | JNull => None
  | JObj fields =>
      match getField (str "_id") fields with
      | Some x => if truthy x then castObjectId (toStr x)
                  else castObjectId (toStr v)
      | None => castObjectId (toStr v)
      end
  | _ => castObjectId (toStr v)
  end.

(** The condition on an ObjectId path that selects one id. *)
Definition eqId (i : jstring) : jstring → bool :=
  λ x, bool_decide (x = i).

(** A key of a query operator. *)
Definition isOperator (k : jstring) : bool :=
  match k with
  | 36%N :: _ => true
  | _ => false
  end.

(** The comparison operators, on ids in the order of their bytes. *)
Definition comparison (op : jstring) : option (jstring → jstring → bool) :=
  if bool_decide (op = str "$eq") then Some eqId
  else if bool_decide (op = str "$ne") then Some (λ i x, negb (eqId i x))
  else if bool_decide (op = str "$gt") then Some (λ i x, ltb i x)
  else if bool_decide (op = str "$gte") then Some (λ i x, negb (ltb x i))
  else if bool_decide (op = str "$lt") then Some (λ i x, ltb x i)
  else if bool_decide (op = str "$lte") then Some (λ i x, negb (ltb i x))
  else None.

(** The cast of an element of an array of ids: [null] stays. *)
Definition castElement (x : JsVal) : option (option jstring) :=
  match x with
  | JUndefined | JNull => Some None
  | _ => Some <$> castId x
  end.

(** ** The server *)

(** An authenticated socket: its id and what the middleware attached. *)
Record Socket : Type := {
  sock_id : jstring;
  userId : jstring;
  user : User;
}.

(** A value of the [activeUsers] map. *)
Record Presence : Type := {
  socketId : jstring;
  presentUser : User;
}.

Record Server : Type := {
  users : list User;
  conversations : list Conversation;
  messages : list Message;
  activeUsers : gmap jstring Presence;
  (** room membership of the adapter: pairs (room, socket id) *)
  rooms : gset (jstring * jstring);
  (** the sockets that are connected *)
  sockets : gmap jstring Socket;
}.

Definition init : Server :=
  {| users := []; conversations := []; messages := [];
     activeUsers := ∅; rooms := ∅; sockets := ∅ |}.

(** The awaited calls of the store.  A call rejects when the backend is
    unavailable or when a validator of the schema refuses a write. *)
Inductive StoreCall : Type :=
| UserFindById
| ConversationFindById
| ConversationFindOne
| ConversationCreate
| ConversationSave
| MessageSave
| MessagePopulate
| MessageUpdateMany
| MessageFind.

(** What a run takes from its environment: the clock, the ObjectId the
    driver generates for a new document, the store calls that reject, and
    the reading of the query operators that are not modelled: the ids an
    object of such operators selects, or [None] when its cast throws. *)
Record Env : Type := {
  now : Z;
  newId : jstring;
  rejects : StoreCall → bool;
  otherConditions : JsVal → option (jstring → bool);
}.

(** The condition a value makes in a query on an ObjectId path, [None]
    when the cast throws.  [null] selects no document.  An array is an
    implicit [$in].  An object with an operator key is a condition: all its
    keys have to be operators; the one of a single comparison is modelled,
    that of any other is the environment's.  Every other value is cast to
    an id and selects it. *)
Definition castQuery (env : Env) (v : JsVal) : option (jstring → bool) :=
  match v with
  | JUndefined | JNull => Some (λ _, false)
  | JArr items =>
      (λ ids x, bool_decide (x ∈ omap id ids)) <$> mapM castElement items
  | JObj fields =>
      if existsb (λ f, isOperator f.1) fields then
        if forallb (λ f, isOperator f.1) fields then
          match fields with
          | [(op, operand)] =>
              match comparison op, operand with
              | Some _, (JUndefined | JNull) => otherConditions env v
              | Some cmp, _ => cmp <$> castId operand
              | None, _ => otherConditions env v
              end
          | _ => otherConditions env v
          end
        else None
      else eqId <$> castId v
  | _ => eqId <$> castId v
  end.

(** ** Emitted events *)

Inductive Target : Type :=
| ToSocket (sid : jstring)                    (* socket.emit *)
| ToRoom (room : jstring)                     (* io.to(room).emit *)
| ToRoomExcept (room : jstring) (sid : jstring) (* socket.to(room).emit *)
| ToAllExcept (sid : jstring).                (* socket.broadcast.emit *)

Inductive Payload : Type :=
| PError (message : string)
| PMessage (m : Populated)
| PNotification (conversationId : JsVal) (m : Populated) (from : User)
| PUserId (uid : jstring)
| PTyping (uid : jstring) (userName : jstring) (isTyping : JsVal)
| PMessagesRead (conversationId : JsVal) (uid : jstring).

Record Emit : Type := {
  target : Target;
  event : string;
  payload : Payload;
}.

#[global] Instance Target_eq_dec : EqDecision Target.
Proof. solve_decision. Defined.
#[global] Instance Payload_eq_dec : EqDecision Payload.
Proof. solve_decision. Defined.
#[global] Instance Emit_eq_dec : EqDecision Emit.
Proof. solve_decision. Defined.

(** The sockets an emission is delivered to. *)
Definition members (s : Server) (room : jstring) : gset jstring :=
  set_map snd (filter (λ p, p.1 = room) (rooms s)).

Definition recipients (s : Server) (t : Target) : gset jstring :=
  match t with
  | ToSocket sid => {[sid]} ∩ dom (sockets s)
  | ToRoom room => members s room
  | ToRoomExcept room sid => members s room ∖ {[sid]}
  | ToAllExcept sid => dom (sockets s) ∖ {[sid]}
  end.

(** ** Handlers as runs over the server

    A run of a handler ends normally with a value or by a thrown exception
    ([None]); in both cases the writes made and the events emitted so far
    stay. *)

Record Run (A : Type) : Type := MkRun {
  result : option A;
  final : Server;
  emitted : list Emit;
}.
Arguments MkRun {A} _ _ _.
Arguments result {A} _.
Arguments final {A} _.
Arguments emitted {A} _.

Definition M (A : Type) : Type := Server → Run A.

Definition ret {A} (a : A) : M A :=
  λ s, {| result := Some a; final := s; emitted := [] |}.

Definition throw {A} : M A :=
  λ s, {| result := None; final := s; emitted := [] |}.

Definition bind {A B} (m : M A) (f : A → M B) : M B :=
  λ s, match m s with
       | MkRun None s1 e1 => MkRun None s1 e1
       | MkRun (Some a) s1 e1 =>
           match f a s1 with
           | MkRun r s2 e2 => MkRun r s2 (e1 ++ e2)
           end
       end.

(** [try { m } catch (error) { h }] *)
Definition tryCatch {A} (m : M A) (h : M A) : M A :=
  λ s, match m s with
       | MkRun (Some a) s1 e1 => MkRun (Some a) s1 e1
       | MkRun None s1 e1 =>
           match h s1 with
           | MkRun r s2 e2 => MkRun r s2 (e1 ++ e2)
           end
       end.

Definition gets {A} (f : Server → A) : M A :=
  λ s, {| result := Some (f s); final := s; emitted := [] |}.

Definition modify (f : Server → Server) : M unit :=
  λ s, {| result := Some tt; final := f s; emitted := [] |}.

Definition emit (t : Target) (ev : string) (p : Payload) : M unit :=
  λ s, {| result := Some tt; final := s;
          emitted := [ {| target := t; event := ev; payload := p |} ] |}.

(** [await] of a store call: it rejects when the environment says so. *)
Definition await (env : Env) (c : StoreCall) : M unit :=
  if rejects env c then throw else ret tt.

(** A value that a cast gives, or the throw of the cast. *)
Definition orThrow {A} (x : option A) : M A :=
  match x with
  | Some a => ret a
  | None => throw
  end.

Declare Scope run_scope.
Delimit Scope run_scope with run.
Notation "'let*' x ':=' m 'in' k" := (bind m (λ x, k))
  (at level 10, x name, m at level 100, k at level 200) : run_scope.
Notation "m >> k" := (bind m (λ _, k))
  (at level 100, k at level 200, right associativity) : run_scope.
Local Open Scope run_scope.

(** ** Store adapter *)

Definition set_conversations (f : list Conversation → list Conversation)
    (s : Server) : Server :=
  {| users := users s; conversations := f (conversations s);
     messages := messages s; activeUsers := activeUsers s;
     rooms := rooms s; sockets := sockets s |}.

Definition set_messages (f : list Message → list Message)
    (s : Server) : Server :=
  {| users := users s; conversations := conversations s;
     messages := f (messages s); activeUsers := activeUsers s;
     rooms := rooms s; sockets := sockets s |}.

Definition set_activeUsers (f : gmap jstring Presence → gmap jstring Presence)
    (s : Server) : Server :=
  {| users := users s; conversations := conversations s;
     messages := messages s; activeUsers := f (activeUsers s);
     rooms := rooms s; sockets := sockets s |}.

Definition set_rooms (f : gset (jstring * jstring) → gset (jstring * jstring))
    (s : Server) : Server :=
  {| users := users s; conversations := conversations s;
     messages := messages s; activeUsers := activeUsers s;
     rooms := f (rooms s); sockets := sockets s |}.

Definition set_sockets (f : gmap jstring Socket → gmap jstring Socket)
    (s : Server) : Server :=
  {| users := users s; conversations := conversations s;
     messages := messages s; activeUsers := activeUsers s;
     rooms := rooms s; sockets := f (sockets s) |}.

(** The document of a collection with the given [_id]. *)
Definition byId {D} (idOf : D → jstring) (id : jstring) (coll : list D)
    : option D :=
  List.find (λ d, bool_decide (idOf d = id)) coll.

(** Of the documents of a list, the first of those with the least id: the
    one a scan of the index on [_id] comes to first. *)
Definition leastById {D} (idOf : D → jstring) (l : list D) : option D :=
  foldr (λ d least,
           match least with
           | Some a => if ltb (idOf a) (idOf d) then Some a else Some d
           | None => Some d
           end) None l.

(** [findOne({_id: condition})] *)
Definition findOne {D} (idOf : D → jstring) (P : jstring → bool)
    (coll : list D) : option D :=
  leastById idOf (List.filter (λ d, P (idOf d)) coll).

(** [doc.select('-password')] *)
Definition withoutPassword (u : User) : User :=
  {| user_id := user_id u; name := name u; email := email u;
     password := None; profilePicture := profilePicture u;
     connections := connections u |}.

(** [await User.findById(id).select('-password')], of a string. *)
Definition User_findById (env : Env) (id : jstring) : M (option User) :=
  let* i := orThrow (castObjectId id) in
  await env UserFindById >>
  gets (λ s, withoutPassword <$> byId user_id i (users s)).

(** [await Conversation.findById(id)], of a value of a payload. *)
Definition Conversation_findById (env : Env) (id : JsVal)
    : M (option Conversation) :=
  let* P := orThrow (castQuery env id) in
  await env ConversationFindById >>
  gets (λ s, findOne conv_id P (conversations s)).

(** [participants.includes(id)] *)
Definition includes (l : list jstring) (id : jstring) : bool :=
  bool_decide (id ∈ l).

(** [new Message({conversation, sender, text})]: the schema's defaults fill
    the read flag, the driver the id; [save] stamps the creation date.  The
    sender is the id of the socket's user, as a string.  There is no valid
    document ([None]) when the conversation does not cast. *)
Definition newMessage (env : Env) (conversationId : JsVal)
    (sender text : jstring) : option Message :=
  (λ i, {| msg_id := newId env; conversation := i; sender := sender;
           text := text; read := false; readAt := None;
           createdAt := now env |}) <$> castId conversationId.

(** Insertion of a new document: the unique index on [_id] makes the store
    reject an id that is taken. *)
Definition insertNew {D} (coll : Server → list D) (idOf : D → jstring)
    (id : jstring) : M unit :=
  λ s, match byId idOf id (coll s) with
       | Some _ => throw s
       | None => ret tt s
       end.

(** The document as the store keeps it. *)
Definition stored (m : Message) : Message :=
  {| msg_id := msg_id m; conversation := conversation m; sender := sender m;
     text := toWellFormed (text m); read := read m; readAt := readAt m;
     createdAt := createdAt m |}.

(** [await message.save()], of a message made by [new Message]: a document
    that is not valid is rejected; the document in memory stays as it is. *)
Definition Message_save (env : Env) (m : option Message) : M Message :=
  let* m := orThrow m in
  await env MessageSave >>
  insertNew messages msg_id (msg_id m) >>
  modify (set_messages (λ coll, coll ++ [stored m])) >>
  ret m.

Definition senderInfo (u : User) : SenderInfo :=
  {| si_id := user_id u; si_name := name u;
     si_profilePicture := profilePicture u |}.

(** [await message.populate('sender', 'name profilePicture')] *)
Definition Message_populate (env : Env) (m : Message) : M Populated :=
  await env MessagePopulate >>
  gets (λ s, {| doc := m;
                populatedSender := senderInfo <$> byId user_id (sender m) (users s) |}).

(** [conversation.lastMessage = id; conversation.lastMessageAt = new Date()] *)
Definition touch (env : Env) (c : Conversation) (id : jstring) : Conversation :=
  {| conv_id := conv_id c; participants := participants c;
     lastMessage := Some id; lastMessageAt := now env;
     conv_createdAt := conv_createdAt c; conv_updatedAt := conv_updatedAt c |}.

(** What [save] of the loaded document [c] makes of the stored document
    [x]: the paths the handler assigned are written, [updatedAt] is
    stamped, the other paths stay. *)
Definition writeBack (env : Env) (c x : Conversation) : Conversation :=
  {| conv_id := conv_id x; participants := participants x;
     lastMessage := lastMessage c; lastMessageAt := lastMessageAt c;
     conv_createdAt := conv_createdAt x; conv_updatedAt := now env |}.

(** [await conversation.save()], of a loaded document whose [lastMessage]
    and [lastMessageAt] were assigned: an update of the stored document
    with its [_id]. *)
Definition Conversation_save (env : Env) (c : Conversation) : M unit :=
  await env ConversationSave >>
  modify (set_conversations (fmap (λ x,
    if bool_decide (conv_id x = conv_id c) then writeBack env c x else x))).

(** The filter of the bulk update of read receipts:
    [{conversation: condition, sender: {$ne: uid}, read: false}]. *)
Definition unreadFromOthers (P : jstring → bool) (uid : jstring) (m : Message)
    : bool :=
  P (conversation m)
  && negb (bool_decide (sender m = uid))
  && negb (read m).

(** The update [{read: true, readAt: new Date()}]. *)
Definition markRead (env : Env) (m : Message) : Message :=
  {| msg_id := msg_id m; conversation := conversation m; sender := sender m;
     text := text m; read := true; readAt := Some (now env);
     createdAt := createdAt m |}.

(** [await Message.updateMany(filter, update)] *)
Definition Message_updateMany (env : Env) (P : jstring → bool) (uid : jstring)
    : M unit :=
  await env MessageUpdateMany >>
  modify (set_messages (fmap (λ m,
    if unreadFromOthers P uid m then markRead env m else m))).

(** ** Socket handlers ([server.js]) *)

(** The payload of [send-message]: the three fields the handler takes out
    of [data]; a field the client left out is [JUndefined]. *)
Record SendData : Type := {
  sd_conversationId : JsVal;
  sd_text : JsVal;
  sd_receiverId : JsVal;
}.

(** [const {...} = data]: taking fields out of [null] or [undefined]
    throws a TypeError. *)
Definition destructure {A} (data : option A) : M A :=
  match data with
  | Some d => ret d
  | None => throw
  end.

(** [text.trim()]: only a string has the method. *)
Definition callTrim (v : JsVal) : M jstring :=
  match v with
  | JStr s => ret (trim s)
  | _ => throw
  end.

Definition conversationRoom (conversationId : jstring) : jstring :=
  str "conversation-" ++ conversationId.

Definition userRoom (id : jstring) : jstring :=
  str "user-" ++ id.

(** [Array.from(activeUsers.values()).find(u => u.user._id.toString() === receiverId)] *)
Definition findReceiver (s : Server) (receiverId : JsVal) : option Presence :=
  List.find (λ u, strictEqStr (user_id (presentUser u)) receiverId)
            (map_to_list (activeUsers s)).*2.

Definition textRequired : string := "Message text is required".
Definition notFoundOrDenied : string := "Conversation not found or access denied".
Definition sendFailed : string := "Failed to send message".

(** [socket.on('send-message', async (data) => ...)] *)
Definition sendMessage (env : Env) (socket : Socket) (data : option SendData)
    : M unit :=
  tryCatch
    (let* d := destructure data in
     let conversationId := sd_conversationId d in
     let text := sd_text d in
     let receiverId := sd_receiverId d in
     let* missing :=
       (if negb (truthy text) then ret true
        else let* t := callTrim text in ret (negb (truthy (JStr t)))) in
     if (missing : bool) then
       emit (ToSocket (sock_id socket)) "error" (PError textRequired)
     else
       let* found := Conversation_findById env conversationId in
       match found with
       | None =>
           emit (ToSocket (sock_id socket)) "error" (PError notFoundOrDenied)
       | Some conversation =>
           if negb (includes (participants conversation) (userId socket)) then
             emit (ToSocket (sock_id socket)) "error" (PError notFoundOrDenied)
           else
             let* t := callTrim text in
             let* message :=
               Message_save env
                 (newMessage env conversationId (userId socket) t) in
             let* populated := Message_populate env message in
             let conversation' := touch env conversation (msg_id message) in
             Conversation_save env conversation' >>
             emit (ToRoom (conversationRoom (toStr conversationId)))
                  "new-message" (PMessage populated) >>
             let* receiverSocket := gets (λ s, findReceiver s receiverId) in
             match receiverSocket with
             | Some _ =>
                 emit (ToRoom (userRoom (toStr receiverId)))
                      "message-notification"
                      (PNotification conversationId populated (user socket))
             | None => ret tt
             end
       end)
    (emit (ToSocket (sock_id socket)) "error" (PError sendFailed)).

(** The payload of [mark-read]. *)
Record ReadData : Type := {
  rd_conversationId : JsVal;
}.

(** [socket.on('mark-read', async (data) => ...)] *)
Definition markReadHandler (env : Env) (socket : Socket) (data : option ReadData)
    : M unit :=
  tryCatch
    (let* d := destructure data in
     let conversationId := rd_conversationId d in
     let* found := Conversation_findById env conversationId in
     match found with
     | None => ret tt
     | Some conversation =>
         if negb (includes (participants conversation) (userId socket)) then
           ret tt
         else
           let* P := orThrow (castQuery env conversationId) in
           Message_updateMany env P (userId socket) >>
           emit (ToRoomExcept (conversationRoom (toStr conversationId))
                              (sock_id socket))
                "messages-read"
                (PMessagesRead conversationId (userId socket))
     end)
    (ret tt).

(** The payload of [typing]. *)
Record TypingData : Type := {
  td_conversationId : JsVal;
  td_isTyping : JsVal;
}.

(** [socket.on('typing', (data) => ...)]; there is no [try] around it, a
    throw ends the handler. *)
Definition typing (socket : Socket) (data : option TypingData) : M unit :=
  let* d := destructure data in
  emit (ToRoomExcept (conversationRoom (toStr (td_conversationId d)))
                     (sock_id socket))
       "user-typing"
       (PTyping (userId socket) (name (user socket)) (td_isTyping d)).

(** [socket.on('join-conversation', ...)] *)
Definition joinConversation (socket : Socket) (conversationId : JsVal) : M unit :=
  modify (set_rooms (λ r,
    {[ (conversationRoom (toStr conversationId), sock_id socket) ]} ∪ r)).

(** [socket.on('leave-conversation', ...)] *)
Definition leaveConversation (socket : Socket) (conversationId : JsVal) : M unit :=
  modify (set_rooms (λ r,
    r ∖ {[ (conversationRoom (toStr conversationId), sock_id socket) ]})).

(** [socket.on('disconnect', ...)]; the transport has removed the socket and
    its room memberships. *)
Definition disconnect (socket : Socket) : M unit :=
  modify (set_sockets (delete (sock_id socket))) >>
  modify (set_rooms (filter (λ p, p.2 ≠ sock_id socket))) >>
  modify (set_activeUsers (delete (userId socket))) >>
  emit (ToAllExcept (sock_id socket)) "user-offline" (PUserId (userId socket)).

(** [io.on('connection', (socket) => ...)], up to the registration of the
    handlers. *)
Definition connection (socket : Socket) : M unit :=
  modify (set_sockets (insert (sock_id socket) socket)) >>
  modify (set_activeUsers (insert (userId socket)
    {| socketId := sock_id socket; presentUser := user socket |})) >>
  emit (ToAllExcept (sock_id socket)) "user-online" (PUserId (userId socket)) >>
  modify (set_rooms (λ r, {[ (userRoom (userId socket), sock_id socket) ]} ∪ r)).

(** ** Find-or-create of a conversation ([models/Conversation.js]) *)

(** [await this.findOne({ participants })]: the elements of the array are
    cast; a document whose array equals the cast one. *)
Definition Conversation_findOne (env : Env) (ps : list jstring)
    : M (option Conversation) :=
  let* ids := orThrow (mapM castObjectId ps) in
  await env ConversationFindOne >>
  gets (λ s, List.find (λ c, bool_decide (participants c = ids))
                       (conversations s)).

(** An id of the list is a participant of the conversation. *)
Definition sharesParticipant (ids : list jstring) (c : Conversation) : bool :=
  existsb (includes (participants c)) ids.

(** [conversationSchema.index({ participants: 1 }, { unique: true })]: the
    index of an array path has a key for every element of the array, so
    the store refuses a document one of whose participants is a participant
    of a stored conversation. *)
Definition uniqueParticipants (ids : list jstring) : M unit :=
  λ s, if existsb (sharesParticipant ids) (conversations s)
       then throw s else ret tt s.

(** [await this.create({ participants })]: [lastMessageAt] defaults to
    [Date.now], the timestamps are stamped. *)
Definition Conversation_create (env : Env) (ps : list jstring)
    : M Conversation :=
  let* ids := orThrow (mapM castObjectId ps) in
  let c := {| conv_id := newId env; participants := ids; lastMessage := None;
              lastMessageAt := now env; conv_createdAt := now env;
              conv_updatedAt := now env |} in
  await env ConversationCreate >>
  insertNew conversations conv_id (conv_id c) >>
  uniqueParticipants ids >>
  modify (set_conversations (λ coll, coll ++ [c])) >>
  ret c.

(** [conversationSchema.statics.findOrCreate]; an argument is taken as the
    string [sort] makes of it. *)
Definition findOrCreate (env : Env) (userId1 userId2 : jstring)
    : M Conversation :=
  let participants := sort2 userId1 userId2 in
  let* conversation := Conversation_findOne env participants in
  match conversation with
  | Some c => ret c
  | None => Conversation_create env participants
  end.

(** ** Message history ([routes/chat.js]) *)

Inductive Response : Type :=
| Json (messages : list Populated)
| Status (code : nat) (message : string).

Definition olderOrSame (a b : Message) : Prop := createdAt a ≤ createdAt b.

#[global] Instance olderOrSame_dec a b : Decision (olderOrSame a b).
Proof. unfold olderOrSame. apply _. Defined.

Definition historyLimit : nat := 100.

(** [Message.find({conversation}).populate('sender', ...).sort({createdAt: 1}).limit(100)],
    of the id of a loaded conversation. *)
Definition Message_find (env : Env) (conversationId : jstring)
    : M (list Populated) :=
  await env MessageFind >>
  gets (λ s,
    let matching := filter (λ m, conversation m = conversationId)
                           (messages s) in
    let sorted := merge_sort olderOrSame matching in
    (λ m, {| doc := m;
             populatedSender := senderInfo <$> byId user_id (sender m) (users s) |})
      <$> take historyLimit sorted).

(** [router.get('/conversations/:conversationId/messages', auth, ...)];
    [reqUser] is the user the [auth] middleware attached to the request,
    the parameter of the path is a string. *)
Definition getMessages (env : Env) (reqUser : User) (conversationId : jstring)
    : M Response :=
  tryCatch
    (let* found := Conversation_findById env (JStr conversationId) in
     match found with
     | None => ret (Status 404 "Conversation not found")
     | Some conversation =>
         if negb (includes (participants conversation) (user_id reqUser)) then
           ret (Status 403 "Access denied")
         else
           let* messages := Message_find env (conv_id conversation) in
           ret (Json messages)
     end)
    (ret (Status 500 "Failed to fetch messages")).

(** [router.put('/conversations/:conversationId/read', auth, ...)] *)
Definition putRead (env : Env) (reqUser : User) (conversationId : jstring)
    : M Response :=
  tryCatch
    (let* found := Conversation_findById env (JStr conversationId) in
     match found with
     | None => ret (Status 404 "Conversation not found")
     | Some conversation =>
         if negb (includes (participants conversation) (user_id reqUser)) then
           ret (Status 403 "Access denied")
         else
           Message_updateMany env (eqId (conv_id conversation))
                              (user_id reqUser) >>
           ret (Status 200 "Messages marked as read")
     end)
    (ret (Status 500 "Failed to mark messages as read")).

(** ** Connection authentication ([io.use]) *)

Inductive AuthOutcome : Type :=
| Accepted (socket : Socket)      (* next() *)
| Refused (message : string).     (* next(new Error(message)) *)

Definition noToken : string := "Authentication error: No token provided".
Definition userNotFound : string := "Authentication error: User not found".
Definition invalidToken : string := "Authentication error: Invalid token".

Section Authentication.

(** [jwt.verify(token, secret)] of the token library: the [id] of the
    decoded payload, or [None] when it throws (malformed, wrong signature,
    expired). *)
Variable jwt_verify : jstring → option jstring.

(** [jwt.verify] of a value: anything but a string throws. *)
Definition verify (token : JsVal) : M jstring :=
  match token with
  | JStr t => match jwt_verify t with
              | Some id => ret id
              | None => throw
              end
  | _ => throw
  end.

(** The token does not verify: it is not a string, or [jwt.verify] throws. *)
Definition unverifiable (token : JsVal) : Prop :=
  ∀ t, token = JStr t → jwt_verify t = None.

(** The token verifies and decodes to [id]. *)
Definition decodesTo (token : JsVal) (id : jstring) : Prop :=
  ∃ t, token = JStr t ∧ jwt_verify t = Some id.

(** The middleware; [sid] is the id of the socket being opened. *)
Definition authenticate (env : Env) (sid : jstring) (token : JsVal)
    : M AuthOutcome :=
  tryCatch
    (if negb (truthy token) then ret (Refused noToken)
     else
       let* id := verify token in
       let* found := User_findById env id in
       match found with
       | None => ret (Refused userNotFound)
       | Some u =>
           ret (Accepted {| sock_id := sid; userId := user_id u; user := u |})
       end)
    (ret (Refused invalidToken)).

(** ** The server as a transition system *)

(** The inputs of the server: the opening of a socket with its token, the
    events of a connected socket, the requests of the chat routes, and any
    change the other routes make to the users. *)
Inductive Input : Type :=
| Connect (sid : jstring) (token : JsVal)
| JoinConversation (sid : jstring) (conversationId : JsVal)
| LeaveConversation (sid : jstring) (conversationId : JsVal)
| SendMessage (sid : jstring) (data : option SendData)
| Typing (sid : jstring) (data : option TypingData)
| MarkRead (sid : jstring) (data : option ReadData)
| Disconnect (sid : jstring)
| FindOrCreate (userId1 userId2 : jstring)
| GetMessages (reqUser : User) (conversationId : jstring)
| PutRead (reqUser : User) (conversationId : jstring)
| UsersChanged (users' : list User).

(** An event of a socket runs its handler when the socket is connected. *)
Definition onSocket (sid : jstring) (h : Socket → M unit) : M unit :=
  let* found := gets (λ s, sockets s !! sid) in
  match found with
  | Some socket => h socket
  | None => ret tt
  end.

Definition step (env : Env) (i : Input) : M unit :=
  match i with
  | Connect sid token =>
      let* known := gets (λ s, sockets s !! sid) in
      match known with
      | Some _ => ret tt
      | None =>
          let* outcome := authenticate env sid token in
          match outcome with
          | Accepted socket => connection socket
          | Refused _ => ret tt
          end
      end
  | JoinConversation sid c => onSocket sid (λ socket, joinConversation socket c)
  | LeaveConversation sid c => onSocket sid (λ socket, leaveConversation socket c)
  | SendMessage sid data => onSocket sid (λ socket, sendMessage env socket data)
  | Typing sid data => onSocket sid (λ socket, typing socket data)
  | MarkRead sid data => onSocket sid (λ socket, markReadHandler env socket data)
  | Disconnect sid => onSocket sid disconnect
  | FindOrCreate a b => findOrCreate env a b >> ret tt
  | GetMessages reqUser c => getMessages env reqUser c >> ret tt
  | PutRead reqUser c => putRead env reqUser c >> ret tt
  | UsersChanged users' =>
      modify (λ s, {| users := users'; conversations := conversations s;
                      messages := messages s; activeUsers := activeUsers s;
                      rooms := rooms s; sockets := sockets s |})
  end.

Inductive reachable : Server → Prop :=
| reachable_init : reachable init
| reachable_step s env i :
    reachable s → reachable (final (step env i s)).

End Authentication.

(** ** Properties of states and runs *)

(** A computation keeps a property of the state, however it ends. *)
Definition preserves {A} (I : Server → Prop) (m : M A) : Prop :=
  ∀ s, I s → I (final (m s)).

(** A payload passes the validation gate: its text is a string that is not
    empty once trimmed. *)
Definition validText (v : JsVal) : Prop :=
  ∃ t, v = JStr t ∧ trim t ≠ [].

(** The text is missing, empty or white space only. *)
Definition noText (v : JsVal) : Prop :=
  v = JUndefined ∨ v = JNull ∨ ∃ t, v = JStr t ∧ blank t = true.

(** [u] is [t] without the white space at its two ends. *)
Definition trimmedOf (t u : jstring) : Prop :=
  ∃ before after,
    t = before ++ u ++ after
    ∧ blank before = true ∧ blank after = true
    ∧ (∀ c, head u = Some c → isWhiteSpace c = false)
    ∧ (∀ c, last u = Some c → isWhiteSpace c = false).

(** The condition selects the id [i] and no other. *)
Definition selectsOnly (P : jstring → bool) (i : jstring) : Prop :=
  ∀ x, P x = true ↔ x = i.

(** What the lookup of a conversation by the id of a payload comes to when
    the store answers: the conversation found if any, or [None] when the
    cast of the id throws. *)
Definition lookup (env : Env) (s : Server) (v : JsVal)
    : option (option Conversation) :=
  (λ P, findOne conv_id P (conversations s)) <$> castQuery env v.

(** The lookup finds no conversation of which the user is a participant:
    none is found, or the user is not among the participants of the one
    found, or the cast of the id throws. *)
Definition noAccess (env : Env) (s : Server) (v : JsVal) (uid : jstring)
    : Prop :=
  match lookup env s v with
  | Some (Some c) => uid ∉ participants c
  | _ => True
  end.

(** The error event a handler sends back to its own socket. *)
Definition errorTo (socket : Socket) (message : string) : Emit :=
  {| target := ToSocket (sock_id socket); event := "error";
     payload := PError message |}.


(** The message of a send as the handler holds it, with the payload text
    [t] and the conversation id [i] the payload's id casts to. *)
Definition sentMessage (env : Env) (socket : Socket) (i t : jstring)
    : Message :=
  {| msg_id := newId env; conversation := i;
     sender := userId socket; text := trim t; read := false;
     readAt := None; createdAt := now env |}.

Definition sentPopulated (env : Env) (socket : Socket) (i t : jstring)
    (s : Server) : Populated :=
  {| doc := sentMessage env socket i t;
     populatedSender := senderInfo <$> byId user_id (userId socket) (users s) |}.

Definition newMessageEvent (env : Env) (socket : Socket) (d : SendData)
    (i t : jstring) (s : Server) : Emit :=
  {| target := ToRoom (conversationRoom (toStr (sd_conversationId d)));
     event := "new-message";
     payload := PMessage (sentPopulated env socket i t s) |}.

Definition notificationEvent (env : Env) (socket : Socket) (d : SendData)
    (i t : jstring) (s : Server) : Emit :=
  {| target := ToRoom (userRoom (toStr (sd_receiverId d)));
     event := "message-notification";
     payload := PNotification (sd_conversationId d)
                              (sentPopulated env socket i t s) (user socket) |}.

(** The events of a successful send. *)
Definition sendEvents (env : Env) (socket : Socket) (d : SendData)
    (i t : jstring) (s : Server) : list Emit :=
  newMessageEvent env socket d i t s
  :: match findReceiver s (sd_receiverId d) with
     | Some _ => [notificationEvent env socket d i t s]
     | None => []
     end.

(** The state after a successful send. *)
Definition afterSend (env : Env) (socket : Socket) (i t : jstring)
    (c : Conversation) (s : Server) : Server :=
  set_conversations (fmap (λ x,
      if bool_decide (conv_id x = conv_id c)
      then writeBack env (touch env c (newId env)) x else x))
    (set_messages (λ coll, coll ++ [stored (sentMessage env socket i t)]) s).

(** The key of a presence entry is the id of its user, and a socket carries
    the id of its user. *)
Definition presenceKeyed (s : Server) : Prop :=
  (∀ k p, activeUsers s !! k = Some p → user_id (presentUser p) = k)
  ∧ (∀ sid socket, sockets s !! sid = Some socket →
       sock_id socket = sid ∧ userId socket = user_id (user socket)).

(** [activeUsers.has(v)]: the keys are strings. *)
Definition present (s : Server) (v : JsVal) : bool :=
  match v with
  | JStr id => bool_decide (is_Some (activeUsers s !! id))
  | _ => false
  end.

(** What the unique index keeps: two conversation documents have no
    participant in common. *)
Definition participantsApart (s : Server) : Prop :=
  ∀ i j c1 c2 p,
    conversations s !! i = Some c1 → conversations s !! j = Some c2 →
    p ∈ participants c1 → p ∈ participants c2 → i = j.

(** Every conversation has two participants. *)
Definition paired (s : Server) : Prop :=
  Forall (λ c, List.length (participants c) = 2%nat) (conversations s).

(** What the states the server reaches have of the conversations. *)
Definition indexed (s : Server) : Prop := participantsApart s ∧ paired s.

(** No two conversation documents are of the same unordered pair. *)
Definition onePerPair (s : Server) : Prop :=
  ∀ i j c1 c2,
    conversations s !! i = Some c1 → conversations s !! j = Some c2 →
    participants c1 ≡ₚ participants c2 → i = j.

(** The messages of a conversation. *)
Definition thread (s : Server) (conversationId : jstring) : list Message :=
  filter (λ m, conversation m = conversationId) (messages s).

(** ** A scenario

    Three users; alice and bob share the conversation [e1], carol is in
    none.  The states are built by running the server. *)

(** The ObjectId that starts with the given hexadecimal digits and goes on
    with zeros. *)
Definition oid (digits : string) : jstring :=
  str digits ++ replicate (24 - List.length (str digits)) 48%N.

Definition quietEnv (t : Z) (id : string) : Env :=
  {| now := t; newId := oid id; rejects := λ _, false;
     otherConditions := λ _, None |}.

Definition mkUser (id nm : string) : User :=
  {| user_id := oid id; name := str nm; email := str (nm ++ "@example.com");
     password := Some (str "hash"); profilePicture := []; connections := [] |}.

(** A token library for the scenario: the token [t-<id>] verifies and
    decodes to [<id>], nothing else verifies. *)
Definition demoVerify (t : jstring) : option jstring :=
  match t with
  | 116%N :: 45%N :: id => Some id
  | _ => None
  end.

(** The token of the user with the given id. *)
Definition tokenOf (id : string) : JsVal := JStr (str "t-" ++ oid id).

Definition demoUsers : list User :=
  [mkUser "a1" "alice"; mkUser "b2" "bob"; mkUser "c3" "carol"].

Definition runAll (l : list (Env * Input)) (s : Server) : Server :=
  foldl (λ s ei, final (step demoVerify ei.1 ei.2 s)) s l.

(** alice, bob and carol are connected; alice and bob have a conversation
    and both have its room open. *)
Definition demoInputs : list (Env * Input) :=
  [ (quietEnv 1 "0", UsersChanged demoUsers);
    (quietEnv 2 "0", Connect (str "s1") (tokenOf "a1"));
    (quietEnv 3 "0", Connect (str "s2") (tokenOf "b2"));
    (quietEnv 4 "0", Connect (str "s3") (tokenOf "c3"));
    (quietEnv 5 "e1", FindOrCreate (oid "b2") (oid "a1"));
    (quietEnv 6 "0", JoinConversation (str "s1") (JStr (oid "e1")));
    (quietEnv 7 "0", JoinConversation (str "s2") (JStr (oid "e1"))) ].

Definition demo : Server := runAll demoInputs init.

(** The conversation of alice and bob as find-or-create made it. *)
Definition demoConversation : Conversation :=
  {| conv_id := oid "e1"; participants := [oid "a1"; oid "b2"];
     lastMessage := None; lastMessageAt := 5;
     conv_createdAt := 5; conv_updatedAt := 5 |}.

Definition someSocket : Socket :=
  {| sock_id := str "s1"; userId := oid "a1";
     user := withoutPassword (mkUser "a1" "alice") |}.

Definition bobSocket : Socket :=
  {| sock_id := str "s2"; userId := oid "b2";
     user := withoutPassword (mkUser "b2" "bob") |}.

(** carol, connected, who is in no conversation. *)
Definition carolSocket : Socket :=
  {| sock_id := str "s3"; userId := oid "c3";
     user := withoutPassword (mkUser "c3" "carol") |}.

Definition hello (conversationId receiver : string) : SendData :=
  {| sd_conversationId := JStr (oid conversationId);
     sd_text := JStr (str "  hi ");
     sd_receiverId := JStr (oid receiver) |}.

Definition whitespaceOnly : SendData :=
  {| sd_conversationId := JStr (oid "e1");
     sd_text := JStr [32; 9; 160; 10]%N;
     sd_receiverId := JStr (oid "b2") |}.

(** After three messages in [e1]: two of alice, one of bob between them. *)
Definition demoChat : Server :=
  runAll [ (quietEnv 8 "f1", SendMessage (str "s1") (Some (hello "e1" "b2")));
           (quietEnv 9 "f2", SendMessage (str "s2") (Some (hello "e1" "a1")));
           (quietEnv 10 "f3", SendMessage (str "s1") (Some (hello "e1" "b2"))) ]
         demo.

Definition longInputs : list (Env * Input) :=
  (λ i : nat, (quietEnv (100 + Z.of_nat i) ("f" ++ pretty (1000 + i)%nat),
               SendMessage (str "s1") (Some (hello "e1" "b2"))))
    <$> seq 1 101.

Definition longChat : Server := runAll longInputs demo.

(** The last message of the long conversation. *)
Definition newestMessage : Message :=
  {| msg_id := oid "f1101"; conversation := oid "e1"; sender := oid "a1";
     text := str "hi"; read := false; readAt := None; createdAt := 201 |}.

(** A second conversation, of carol and dave, made after that of alice and
    bob, with a message of carol that nobody has read. *)
Definition demoOthers : Server :=
  runAll [ (quietEnv 8 "0", UsersChanged (demoUsers ++ [mkUser "d4" "dave"]));
           (quietEnv 9 "e2", FindOrCreate (oid "c3") (oid "d4"));
           (quietEnv 10 "f1", SendMessage (str "s3") (Some (hello "e2" "d4"))) ]
         demo.

(** The message of carol to dave. *)
Definition carolsMessage : Message :=
  {| msg_id := oid "f1"; conversation := oid "e2"; sender := oid "c3";
     text := str "hi"; read := false; readAt := None; createdAt := 10 |}.

(** A mark-read whose conversationId is the object [{"$gte": "<e1>"}]. *)
Definition fromE1On : ReadData :=
  {| rd_conversationId := JObj [(str "$gte", JStr (oid "e1"))] |}.

(** The id of the conversation of alice and bob in upper case. *)
Definition upperE1 : jstring := str "E10000000000000000000000".

(** ** The other chat routes ([routes/chat.js]) *)

(** The awaited calls of the routes that the handlers of the socket do not
    make; like those, each may reject. *)
Inductive RestCall : Type :=
| OtherUserLookup
| CurrentUserLookup
| ParticipantsPopulate
| ConversationList.

(** The environment of a request: that of the store calls it shares with
    the socket handlers, and the rejections of its own calls. *)
Record RestEnv : Type := {
  storeEnv : Env;
  restRejects : RestCall → bool;
}.

Definition awaitRest (renv : RestEnv) (c : RestCall) : M unit :=
  if restRejects renv c then throw else ret tt.

(** A participant as [populate('participants', 'name email profilePicture')]
    leaves it. *)
Record ParticipantInfo : Type := {
  pi_id : jstring;
  pi_name : jstring;
  pi_email : jstring;
  pi_profilePicture : jstring;
}.

#[global] Instance ParticipantInfo_eq_dec : EqDecision ParticipantInfo.
Proof. solve_decision. Defined.

Definition participantInfo (u : User) : ParticipantInfo :=
  {| pi_id := user_id u; pi_name := name u; pi_email := email u;
     pi_profilePicture := profilePicture u |}.

(** The populated array: an id without a stored user is dropped from it. *)
Definition populateParticipants (s : Server) (ids : list jstring)
    : list ParticipantInfo :=
  omap (λ id, participantInfo <$> byId user_id id (users s)) ids.

(** [participants.find(p => p._id.toString() !== req.user._id.toString())] *)
Definition otherOf (me : jstring) (ps : list ParticipantInfo)
    : option ParticipantInfo :=
  List.find (λ p, negb (bool_decide (pi_id p = me))) ps.

Inductive ConversationResponse : Type :=
| ConversationJson (id : jstring) (otherParticipant : option ParticipantInfo)
                   (participants : list ParticipantInfo)
| ConversationStatus (code : nat) (message : string).

(** [currentUser.connections.some(conn => conn.toString() === otherUserId)] *)
Definition isConnected (currentUser : User) (otherUserId : jstring) : bool :=
  existsb (λ conn, bool_decide (conn = otherUserId)) (connections currentUser).

(** [router.get('/conversations/:userId', auth, ...)]: the conversation
    with another user, made if there is none.  The parameter of the path is
    a string, cast for the lookup of the other user; the id of the
    requester is an ObjectId. *)
Definition getConversation (renv : RestEnv) (reqUser : User)
    (otherUserId : jstring) : M ConversationResponse :=
  tryCatch
    (if bool_decide (otherUserId = user_id reqUser) then
       ret (ConversationStatus 400 "Cannot create conversation with yourself")
     else
       let* other := orThrow (castObjectId otherUserId) in
       awaitRest renv OtherUserLookup >>
       let* otherUser := gets (λ s, byId user_id other (users s)) in
       match otherUser with
       | None => ret (ConversationStatus 404 "User not found")
       | Some _ =>
           awaitRest renv CurrentUserLookup >>
           let* loaded := gets (λ s, byId user_id (user_id reqUser) (users s)) in
           (* [currentUser.connections] of [null] throws *)
           let* currentUser := destructure loaded in
           if negb (isConnected currentUser otherUserId) then
             ret (ConversationStatus 403
                    "You must be connected to message this user")
           else
             let* conversation :=
               findOrCreate (storeEnv renv) (user_id reqUser) otherUserId in
             awaitRest renv ParticipantsPopulate >>
             let* populated :=
               gets (λ s, populateParticipants s (participants conversation)) in
             ret (ConversationJson (conv_id conversation)
                    (otherOf (user_id reqUser) populated) populated)
       end)
    (ret (ConversationStatus 500 "Failed to get conversation")).

(** An entry of the list of conversations. *)
Record ConversationSummary : Type := {
  cs_id : jstring;
  cs_otherParticipant : option ParticipantInfo;
  cs_lastMessage : option Message;
  cs_lastMessageAt : Z;
  cs_unreadCount : nat;
}.

Inductive ListResponse : Type :=
| ListJson (conversations : list ConversationSummary)
| ListStatus (code : nat) (message : string).

Definition moreRecent (a b : Conversation) : Prop :=
  lastMessageAt b ≤ lastMessageAt a.

#[global] Instance moreRecent_dec a b : Decision (moreRecent a b).
Proof. unfold moreRecent. apply _. Defined.

(** [Conversation.find({participants: id}).sort({lastMessageAt: -1})] *)
Definition conversationsOf (s : Server) (uid : jstring) : list Conversation :=
  merge_sort moreRecent
    (filter (λ c, uid ∈ participants c) (conversations s)).

(** The entry made of a conversation, its participants and last message
    populated. *)
Definition summary (s : Server) (me : jstring) (conv : Conversation)
    : ConversationSummary :=
  {| cs_id := conv_id conv;
     cs_otherParticipant :=
       otherOf me (populateParticipants s (participants conv));
     cs_lastMessage :=
       match lastMessage conv with
       | Some id => byId msg_id id (messages s)
       | None => None
       end;
     cs_lastMessageAt := lastMessageAt conv;
     cs_unreadCount := 0 |}.

(** [router.get('/conversations', auth, ...)] *)
Definition listConversations (renv : RestEnv) (reqUser : User)
    : M ListResponse :=
  tryCatch
    (awaitRest renv ConversationList >>
     let* found := gets (λ s, conversationsOf s (user_id reqUser)) in
     let* formatted := gets (λ s, summary s (user_id reqUser) <$> found) in
     ret (ListJson formatted))
    (ret (ListStatus 500 "Failed to fetch conversations")).

(** A request environment in which nothing rejects. *)
Definition quietRest (t : Z) (id : string) : RestEnv :=
  {| storeEnv := quietEnv t id; restRejects := λ _, false |}.

(** ** Sockets, rooms and presence *)

(** What holds of the sockets, the rooms and the registry together: a room
    has connected sockets only; a personal room has sockets of its user
    only, and every connected socket is in the personal room of its user;
    a presence entry is that of a connected socket of the user and holds
    its user document; no socket carries a password. *)
Definition socketsSound (s : Server) : Prop :=
  (∀ room sid, (room, sid) ∈ rooms s → is_Some (sockets s !! sid))
  ∧ (∀ u sid, (userRoom u, sid) ∈ rooms s →
       ∃ socket, sockets s !! sid = Some socket ∧ userId socket = u)
  ∧ (∀ sid socket, sockets s !! sid = Some socket →
       (userRoom (userId socket), sid) ∈ rooms s)
  ∧ (∀ k p, activeUsers s !! k = Some p →
       ∃ socket, sockets s !! socketId p = Some socket
                 ∧ userId socket = k ∧ presentUser p = user socket)
  ∧ (∀ sid socket, sockets s !! sid = Some socket →
       password (user socket) = None).

(** The state is that of a server whose sockets are keyed and sound. *)
Definition wired (s : Server) : Prop := presenceKeyed s ∧ socketsSound s.

(** alice has a second socket open. *)
Definition demoTwice : Server :=
  runAll [ (quietEnv 8 "0", Connect (str "s4") (tokenOf "a1")) ] demo.

(** ** Properties of the events of a run *)

(** Every event a computation emits, from whatever state, satisfies [P]. *)
Definition emitsOnly {A} (P : Emit → Prop) (m : M A) : Prop :=
  ∀ s e, e ∈ emitted (m s) → P e.

(** The event carries no user document, so no field of one. *)
Definition carriesNoUser (e : Emit) : Prop :=
  ∀ cid pm u, payload e ≠ PNotification cid pm u.

(** The message an event carries, if it carries one. *)
Definition messageOf (e : Emit) : option Message :=
  match payload e with
  | PMessage pm => Some (doc pm)
  | PNotification _ pm _ => Some (doc pm)
  | _ => None
  end.

(** ** The stored messages *)

(** What holds of every stored message: its text is not empty and is
    trimmed, its conversation exists and its sender is a participant of
    it; and no two messages have the same id. *)
Definition messagesSound (s : Server) : Prop :=
  Forall (λ m, text m ≠ [] ∧ trim (text m) = text m
               ∧ ∃ c, byId conv_id (conversation m) (conversations s) = Some c
                      ∧ sender m ∈ participants c)
         (messages s)
  ∧ NoDup (msg_id <$> messages s).

(** The conversation of alice and bob after the three messages. *)
Definition demoChatConversation : Conversation :=
  {| conv_id := oid "e1"; participants := [oid "a1"; oid "b2"];
     lastMessage := Some (oid "f3"); lastMessageAt := 10;
     conv_createdAt := 5; conv_updatedAt := 10 |}.

(** alice and bob list each other among their connections; carol lists
    nobody. *)
Definition friend (id nm other : string) : User :=
  {| user_id := oid id; name := str nm; email := str (nm ++ "@example.com");
     password := Some (str "hash"); profilePicture := [];
     connections := [oid other] |}.

Definition friends : Server :=
  runAll [ (quietEnv 1 "0",
            UsersChanged [friend "a1" "alice" "b2"; friend "b2" "bob" "a1";
                          mkUser "c3" "carol"]) ] init.

(** The order of the list of conversations: the more recent first. *)
Definition listedBefore (a b : ConversationSummary) : Prop :=
  cs_lastMessageAt b ≤ cs_lastMessageAt a.

(** The socket is a recipient of none of the events. *)
Definition notEchoedTo (sid : jstring) (e : Emit) : Prop :=
  ∀ s, sid ∉ recipients s (target e).

(** * Properties *)

(** ** Strings *)

Section JsFacts.

Lemma trimStart_blank s : blank s = true → trimStart s = [].
Proof.
  induction s as [|c s IH]; simpl; [done|].
  intros [Hc Hs]%andb_prop. rewrite Hc. auto.
Qed.

Lemma trim_blank s : blank s = true → trim s = [].
Proof. intros H. unfold trim. by rewrite trimStart_blank. Qed.

Lemma ltb_irrefl a : ltb a a = false.
Proof.
  induction a as [|x a IH]; simpl; [done|].
  by rewrite N.ltb_irrefl.
Qed.

Lemma ltb_asym a b : ltb a b = true → ltb b a = false.
Proof.
  revert b. induction a as [|x a IH]; intros [|y b]; simpl; try done.
  destruct (x <? y)%N eqn:Hxy, (y <? x)%N eqn:Hyx; try done.
  - apply N.ltb_lt in Hxy, Hyx. lia.
  - apply IH.
Qed.

Lemma ltb_total a b : ltb a b = false → ltb b a = false → a = b.
Proof.
  revert b. induction a as [|x a IH]; intros [|y b]; simpl; try done.
  destruct (x <? y)%N eqn:Hxy, (y <? x)%N eqn:Hyx; try done.
  intros Hab Hba. apply N.ltb_ge in Hxy, Hyx.
  f_equal; [lia | by apply IH].
Qed.

Lemma sort2_comm a b : sort2 a b = sort2 b a.
Proof.
  unfold sort2.
  destruct (ltb b a) eqn:Hba, (ltb a b) eqn:Hab; try done.
  - apply ltb_asym in Hba. congruence.
  - by rewrite (ltb_total _ _ Hab Hba).
Qed.

Example trim_hi : trim (str "  hi there ") = str "hi there".
Proof. reflexivity. Qed.

Example trim_separators : trim [9; 160; 8232; 104; 12288; 105; 65279; 13]%N = [104; 12288; 105]%N.
Proof. reflexivity. Qed.

Example sort2_hex :
  sort2 (str "64b2f0") (str "64a9c1") = [str "64a9c1"; str "64b2f0"]
  ∧ sort2 (str "64a9c1") (str "64b2f0") = [str "64a9c1"; str "64b2f0"].
Proof. split; reflexivity. Qed.

Example truthy_values :
  truthy (JStr []) = false ∧ truthy (JNum 0) = false
  ∧ truthy (JStr (str " ")) = true ∧ truthy (JObj []) = true
  ∧ truthy (JArr []) = true.
Proof. repeat split. Qed.

Example toStr_values :
  toStr (JArr [JStr (str "a"); JNull; JArr [JNum 1; JNum 2]; JObj []])
  = str "a,,1,2,[object Object]"
  ∧ toStr (JArr [JStr (str "e1")]) = str "e1"
  ∧ toStr JUndefined = str "undefined".
Proof. repeat split. Qed.

Example toWellFormed_values :
  toWellFormed [97; 55357]%N = [97; 65533]%N
  ∧ toWellFormed [97; 55357; 98; 55357; 56832; 56832]%N
    = [97; 65533; 98; 55357; 56832; 65533]%N
  ∧ toWellFormed (str "hi") = str "hi".
Proof. repeat split. Qed.

(** *** What [trim] takes away *)

Lemma trimStart_split s : ∃ p, blank p = true ∧ s = p ++ trimStart s.
Proof.
  induction s as [|c s (p & Hb & Hp)]; simpl; [by exists []|].
  destruct (isWhiteSpace c) eqn:Hc; [|by exists []].
  exists (c :: p). simpl. rewrite Hc, Hb. split; [done|]. by rewrite <- Hp.
Qed.

Lemma trimStart_head s c s' : trimStart s = c :: s' → isWhiteSpace c = false.
Proof.
  induction s as [|d s IH]; simpl; [done|].
  destruct (isWhiteSpace d) eqn:Hd; [done|]. by intros [= -> _].
Qed.

Lemma trimStart_fixed c s : isWhiteSpace c = false → trimStart (c :: s) = c :: s.
Proof. intros H. simpl. by rewrite H. Qed.

Lemma trimStart_idemp s : trimStart (trimStart s) = trimStart s.
Proof.
  destruct (trimStart s) as [|c s'] eqn:E; [done|].
  apply trimStart_fixed. by eapply trimStart_head.
Qed.

Lemma blank_reverse p : blank (reverse p) = blank p.
Proof.
  unfold blank. apply eq_true_iff_eq.
  rewrite !forallb_forall. split; intros H x Hx; apply H;
    apply list_elem_of_In; apply list_elem_of_In in Hx;
    by apply elem_of_reverse.
Qed.

Lemma trimEnd_split s : ∃ q, blank q = true ∧ s = trimEnd s ++ q.
Proof.
  destruct (trimStart_split (reverse s)) as (p & Hb & Hp).
  exists (reverse p). split; [by rewrite blank_reverse|].
  unfold trimEnd. rewrite <- reverse_app, <- Hp. by rewrite reverse_involutive.
Qed.

Lemma head_reverse {A} (l : list A) : head (reverse l) = last l.
Proof.
  induction l as [|x l IH] using rev_ind; [done|].
  by rewrite reverse_snoc, last_snoc.
Qed.

Lemma trimEnd_last s c : last (trimEnd s) = Some c → isWhiteSpace c = false.
Proof.
  unfold trimEnd. rewrite <- head_reverse, reverse_involutive.
  destruct (trimStart (reverse s)) as [|x l] eqn:E; [done|].
  intros [= <-]. by eapply trimStart_head.
Qed.

Lemma trimEnd_head s c :
  (∀ x, head s = Some x → isWhiteSpace x = false) →
  head (trimEnd s) = Some c → isWhiteSpace c = false.
Proof.
  intros Hs. destruct (trimEnd_split s) as (q & _ & Hq).
  destruct (trimEnd s) as [|x l]; [done|].
  intros [= <-]. apply Hs. by rewrite Hq.
Qed.

(** [trim] gives the text without the white space at its ends. *)
Lemma trim_trimmedOf t : trimmedOf t (trim t).
Proof.
  destruct (trimStart_split t) as (p & Hp & Ht).
  destruct (trimEnd_split (trimStart t)) as (q & Hq & Hu).
  exists p, q. unfold trim. split_and!; try done.
  - by rewrite <- Hu.
  - intros c. apply trimEnd_head. intros x.
    destruct (trimStart t) as [|y l] eqn:E; [done|].
    intros [= <-]. by eapply trimStart_head.
  - apply trimEnd_last.
Qed.

(** A string is left as it is by [trim] exactly when it has no white
    space at its ends. *)
Lemma trim_fixed s :
  trim s = s
  ↔ (∀ c, head s = Some c → isWhiteSpace c = false)
    ∧ (∀ c, last s = Some c → isWhiteSpace c = false).
Proof.
  split.
  - intros H. destruct (trim_trimmedOf s) as (_ & _ & _ & _ & _ & Hh & Hl).
    by rewrite H in Hh, Hl.
  - intros [Hh Hl]. unfold trim, trimEnd.
    assert (Hs : trimStart s = s).
    { destruct s as [|c s]; [done|]. apply trimStart_fixed. by apply Hh. }
    rewrite Hs.
    assert (Hr : trimStart (reverse s) = reverse s).
    { destruct (reverse s) as [|c l] eqn:E; [done|].
      apply trimStart_fixed, Hl. by rewrite <- head_reverse, E. }
    by rewrite Hr, reverse_involutive.
Qed.

(** [trim] leaves a trimmed string as it is. *)
Lemma trim_idemp s : trim (trim s) = trim s.
Proof.
  apply trim_fixed.
  by destruct (trim_trimmedOf s) as (_ & _ & _ & _ & _ & Hh & Hl).
Qed.

(** *** The passage through UTF-8 *)

Lemma surrogate_not_white c :
  isHighSurrogate c || isLowSurrogate c = true → isWhiteSpace c = false.
Proof.
  unfold isHighSurrogate, isLowSurrogate, isWhiteSpace.
  intros H. apply orb_false_intro.
  - apply bool_decide_eq_false_2. intros Hin.
    repeat (apply elem_of_cons in Hin as [-> | Hin]; [by vm_compute in H|]).
    by apply elem_of_nil in Hin.
  - apply andb_false_iff.
    destruct (8192 <=? c)%N eqn:E1; [right | by left].
    apply N.leb_gt. apply N.leb_le in E1.
    apply orb_prop in H as [H | H]; apply andb_prop in H as [H _];
      apply N.leb_le in H; lia.
Qed.

(** The passage changes neither the length of a string nor where its white
    space is. *)
Lemma toWellFormed_white s :
  isWhiteSpace <$> toWellFormed s = isWhiteSpace <$> s.
Proof.
  assert (H : ∀ n s, (List.length s ≤ n)%nat →
            isWhiteSpace <$> toWellFormed s = isWhiteSpace <$> s).
  { clear s. induction n as [|n IH]; intros [|c s] Hn; simpl in *;
      try done; try lia.
    destruct (isHighSurrogate c) eqn:Hh.
    - assert (Hc : isWhiteSpace c = false)
        by (apply surrogate_not_white; by rewrite Hh).
      destruct s as [|d s]; [by rewrite Hc|].
      destruct (isLowSurrogate d) eqn:Hl.
      + rewrite !fmap_cons. f_equal. f_equal. apply IH. simpl in Hn. lia.
      + rewrite fmap_cons, Hc. f_equal. apply IH. lia.
    - destruct (isLowSurrogate c) eqn:Hl.
      + assert (Hc : isWhiteSpace c = false)
          by (apply surrogate_not_white; by rewrite Hl, orb_true_r).
        rewrite fmap_cons, Hc. f_equal. apply IH. lia.
      + rewrite fmap_cons. f_equal. apply IH. lia. }
  by apply (H (List.length s)).
Qed.

Lemma toWellFormed_nil s : toWellFormed s = [] ↔ s = [].
Proof.
  pose proof (toWellFormed_white s) as H.
  split; intros E.
  - rewrite E in H. by destruct s.
  - by subst.
Qed.

(** A string without unpaired surrogates comes back as it is. *)
Lemma toWellFormed_id s : noLoneSurrogate s = true → toWellFormed s = s.
Proof.
  assert (H : ∀ n s, (List.length s ≤ n)%nat →
            noLoneSurrogate s = true → toWellFormed s = s).
  { clear s. induction n as [|n IH]; intros [|c s] Hn; simpl in *;
      try done; try lia.
    destruct (isHighSurrogate c).
    - destruct s as [|d s]; [done|].
      intros [Hd Hs]%andb_prop. rewrite Hd. do 2 f_equal.
      apply IH; [simpl in Hn; lia | done].
    - intros [Hc Hs]%andb_prop. apply negb_true_iff in Hc. rewrite Hc.
      f_equal. apply IH; [lia | done]. }
  by apply (H (List.length s)).
Qed.

(** A trimmed text is still trimmed when it comes back from the store. *)
Lemma toWellFormed_trimmed s : trim s = s → trim (toWellFormed s) = toWellFormed s.
Proof.
  rewrite !trim_fixed. intros [Hh Hl].
  pose proof (toWellFormed_white s) as H. split; intros c Hc.
  - destruct (toWellFormed s) as [|c' l']; [done|]. injection Hc as ->.
    destruct s as [|x s']; [done|]. injection H as H _.
    rewrite H. by apply Hh.
  - apply (f_equal last) in H. rewrite !fmap_last, Hc in H.
    destruct (last s) as [x|]; [|done]. injection H as H.
    rewrite H. by apply Hl.
Qed.

End JsFacts.

(** ** Lookups and casts *)

Section Casts.

Lemma byId_id {D} (idOf : D → jstring) id coll x :
  byId idOf id coll = Some x → idOf x = id.
Proof.
  unfold byId. intros H. apply find_some in H as [_ H].
  by apply bool_decide_eq_true_1 in H.
Qed.

Lemma byId_elem {D} (idOf : D → jstring) id coll x :
  byId idOf id coll = Some x → x ∈ coll.
Proof.
  unfold byId. intros H. apply find_some in H as [H _].
  by apply list_elem_of_In.
Qed.

Lemma head_filter {A} (p : A → bool) l : head (List.filter p l) = List.find p l.
Proof.
  induction l as [|x l IH]; simpl; [done|]. by destruct (p x).
Qed.

Lemma find_same {A} (p q : A → bool) l :
  (∀ x, p x = q x) → List.find p l = List.find q l.
Proof.
  intros H. induction l as [|x l IH]; simpl; [done|]. by rewrite H, IH.
Qed.

Lemma leastById_elem {D} (idOf : D → jstring) l d :
  leastById idOf l = Some d → d ∈ l.
Proof.
  revert d. induction l as [|x l IH]; intros d; simpl; [done|].
  destruct (leastById idOf l) as [a|].
  - destruct (ltb (idOf a) (idOf x)); intros [= <-].
    + apply elem_of_cons. right. by apply IH.
    + apply elem_of_cons. by left.
  - intros [= <-]. apply elem_of_cons. by left.
Qed.

(** Among documents of one id, the first is the least. *)
Lemma leastById_same {D} (idOf : D → jstring) i l :
  (∀ d, d ∈ l → idOf d = i) → leastById idOf l = head l.
Proof.
  intros H. destruct l as [|x l]; simpl; [done|].
  destruct (leastById idOf l) as [a|] eqn:E; [|done].
  rewrite (H a), (H x), ltb_irrefl; [done| |].
  - apply elem_of_cons. by left.
  - apply elem_of_cons. right. by eapply leastById_elem.
Qed.


(** A query whose condition selects one id is the lookup of that id. *)
Lemma findOne_only {D} (idOf : D → jstring) P i coll :
  selectsOnly P i → findOne idOf P coll = byId idOf i coll.
Proof.
  intros HP. unfold findOne, byId.
  rewrite (leastById_same idOf i).
  - rewrite head_filter. apply find_same. intros d.
    apply eq_true_iff_eq. rewrite bool_decide_eq_true. apply HP.
  - intros d [_ Hd]%list_elem_of_In%filter_In. by apply HP.
Qed.

Lemma selectsOnly_eqId i : selectsOnly (eqId i) i.
Proof. intros x. unfold eqId. apply bool_decide_eq_true. Qed.

Lemma castQuery_string env raw :
  castQuery env (JStr raw) = eqId <$> castObjectId raw.
Proof. reflexivity. Qed.

(** The lookup by a string: that of the id the string casts to. *)
Lemma lookup_string env s raw :
  lookup env s (JStr raw)
  = (λ i, byId conv_id i (conversations s)) <$> castObjectId raw.
Proof.
  unfold lookup. rewrite castQuery_string.
  destruct (castObjectId raw) as [i|]; simpl; [|done].
  f_equal. apply findOne_only, selectsOnly_eqId.
Qed.

Lemma castObjectId_hex s i c :
  castObjectId s = Some i → c ∈ s → isHexDigit c = true.
Proof.
  unfold castObjectId.
  destruct (List.length s =? 24)%nat; simpl; [|done].
  destruct (forallb isHexDigit s) eqn:E; [|done].
  intros _ Hc. rewrite forallb_forall in E. by apply E, list_elem_of_In.
Qed.

Lemma castObjectId_nonempty s i : castObjectId s = Some i → s ≠ [].
Proof. by intros H ->. Qed.

Lemma isOperator_id : isOperator (str "_id") = false.
Proof. reflexivity. Qed.

Lemma getField_operators k fields :
  forallb (λ f : jstring * JsVal, isOperator f.1) fields = true →
  isOperator k = false →
  getField k fields = None.
Proof.
  intros Hall Hk. unfold getField.
  destruct (List.find _ _) as [f|] eqn:E; [|done].
  apply find_some in E as [Hin Hf].
  apply bool_decide_eq_true_1 in Hf.
  rewrite forallb_forall in Hall.
  apply list_elem_of_In in Hin. rewrite elem_of_reverse in Hin.
  apply list_elem_of_In in Hin.
  specialize (Hall f Hin). congruence.
Qed.

(** The string of an array of two elements or more has a comma. *)
Lemma toStr_array_comma x y l : 44%N ∈ toStr (JArr (x :: y :: l)).
Proof.
  simpl. apply elem_of_app. right. apply elem_of_cons. by left.
Qed.

(** Where a value casts to an id, the condition it makes in a query selects
    that id and no other. *)
Lemma castId_castQuery env v i P :
  castId v = Some i → castQuery env v = Some P → selectsOnly P i.
Proof.
  assert (Heq : ∀ w, castId w = Some i →
            eqId <$> castId w = Some P → selectsOnly P i).
  { intros w -> [= <-]. apply selectsOnly_eqId. }
  destruct v as [| |b|z|t|items|fields]; try done; try apply Heq.
  - (* an array *)
    intros Hid. simpl in Hid.
    destruct items as [|x [|y l]].
    + done.
    + intros HP. simpl in HP.
      assert (Hx : castElement x = Some (Some i)).
      { destruct x as [| |b|z|t|items|fields]; simpl in *; try done;
          try (rewrite app_nil_r in Hid; by rewrite Hid). }
      rewrite Hx in HP. simpl in HP. injection HP as <-.
      intros u. simpl. rewrite bool_decide_eq_true.
      by rewrite list_elem_of_singleton.
    + exfalso.
      pose proof (castObjectId_hex _ _ 44%N Hid (toStr_array_comma x y l)).
      done.
  - (* an object *)
    intros Hid HP. simpl in HP.
    destruct (existsb _ fields) eqn:Hop; [|by apply (Heq (JObj fields))].
    destruct (forallb _ fields) eqn:Hall; [|done].
    exfalso. simpl in Hid.
    by rewrite (getField_operators _ _ Hall isOperator_id) in Hid.
Qed.

(** A conversation found by an id that casts is the conversation with
    that id. *)
Lemma lookup_cast env s v c i :
  lookup env s v = Some (Some c) → castId v = Some i →
  byId conv_id i (conversations s) = Some c.
Proof.
  unfold lookup. destruct (castQuery env v) as [P|] eqn:HP; [|done].
  intros [= Hc] Hid.
  by rewrite <- (findOne_only conv_id P i _ (castId_castQuery env v i P Hid HP)).
Qed.


Example castObjectId_values :
  castObjectId (str "E1000000000000000000ABcd")
  = Some (str "e1000000000000000000abcd")
  ∧ castObjectId (str "e1") = None
  ∧ castObjectId (str "g10000000000000000000000") = None
  ∧ castId (JArr [JStr (oid "e1")]) = Some (oid "e1")
  ∧ castId (JObj [(str "_id", JStr (oid "e1"))]) = Some (oid "e1")
  ∧ castId (JObj [(str "$gte", JStr (oid "e1"))]) = None
  ∧ castId (JNum 5) = None.
Proof. repeat split. Qed.

(** The conditions of some values, on the ids [e1] and [e2]. *)
Example castQuery_values :
  let on (v : JsVal) :=
    (λ P, (P (oid "e1"), P (oid "e2"))) <$> castQuery (quietEnv 0 "0") v in
  on (JStr (oid "e1")) = Some (true, false)
  ∧ on (JStr upperE1) = Some (true, false)
  ∧ on JNull = Some (false, false)
  ∧ on (JStr (str "e1")) = None
  ∧ on (JObj [(str "$gte", JStr (oid "e1"))]) = Some (true, true)
  ∧ on (JObj [(str "$gt", JStr (oid "e1"))]) = Some (false, true)
  ∧ on (JObj [(str "$ne", JStr (oid "e1"))]) = Some (false, true)
  ∧ on (JObj [(str "$gte", JStr (oid "e1")); (str "x", JNull)]) = None
  ∧ on (JArr [JStr (oid "e2"); JNull]) = Some (false, true).
Proof. repeat split. Qed.

End Casts.

(** ** The validation gate *)

Section Gate.

Lemma truthy_valid t : trim t ≠ [] → truthy (JStr t) = true ∧ truthy (JStr (trim t)) = true.
Proof.
  intros H. split; simpl.
  - destruct t; [done|]. by rewrite bool_decide_eq_false_2.
  - by rewrite bool_decide_eq_false_2.
Qed.

Lemma includes_true l id : id ∈ l → includes l id = true.
Proof. intros H. unfold includes. by rewrite bool_decide_eq_true_2. Qed.

Lemma includes_false l id : id ∉ l → includes l id = false.
Proof. intros H. unfold includes. by rewrite bool_decide_eq_false_2. Qed.

Lemma includes_member l id : includes l id = true → id ∈ l.
Proof. unfold includes. apply bool_decide_eq_true_1. Qed.

Lemma includes_stranger l id : includes l id = false → id ∉ l.
Proof. unfold includes. apply bool_decide_eq_false_1. Qed.

End Gate.

(** An error event reaches no socket but the one it is sent back to. *)
Lemma errorTo_recipients s socket message :
  recipients s (target (errorTo socket message)) ⊆ {[sock_id socket]}.
Proof. simpl. apply intersection_subseteq_l. Qed.

(** C3. A send-message whose text is missing, empty or white space only
    writes nothing: the run ends normally in the state it started from
    (no message, no change of a conversation, the socket still connected)
    and emits one event, the error "Message text is required", which goes
    to the socket the event came from and to no other. *)
Theorem send_without_text_rejected env socket d s :
  noText (sd_text d) →
  sendMessage env socket (Some d) s
  = {| result := Some tt; final := s;
       emitted := [errorTo socket textRequired] |}
  ∧ recipients s (target (errorTo socket textRequired)) ⊆ {[sock_id socket]}.
Proof.
  intros Hno. split; [|apply errorTo_recipients].
  unfold sendMessage, tryCatch, bind. simpl.
  destruct Hno as [-> | [-> | (t & -> & Hb)]]; simpl; try done.
  destruct (bool_decide (t = [])) eqn:Ht; simpl; [done|].
  by rewrite trim_blank.
Qed.

Lemma send_without_text_rejected_witness :
  noText (sd_text whitespaceOnly)
  ∧ sendMessage (quietEnv 8 "f1") someSocket (Some whitespaceOnly) demo
    = {| result := Some tt; final := demo;
         emitted := [errorTo someSocket textRequired] |}.
Proof.
  assert (H : noText (sd_text whitespaceOnly)).
  { right; right. exists [32; 9; 160; 10]%N. split; reflexivity. }
  split; [exact H|].
  exact (proj1 (send_without_text_rejected (quietEnv 8 "f1") someSocket
                  whitespaceOnly demo H)).
Defined.

(** A send-message without a payload object throws when the fields are
    taken out of it; the handler answers with its generic error. *)
Lemma send_without_payload env socket s :
  sendMessage env socket None s
  = {| result := Some tt; final := s;
       emitted := [errorTo socket sendFailed] |}.
Proof. reflexivity. Qed.

(** A text that is neither missing nor a string has no [trim]: the handler
    answers with its generic error as well. *)
Lemma send_with_number_as_text env socket cid rid z s :
  z ≠ 0 →
  sendMessage env socket
    (Some {| sd_conversationId := cid; sd_text := JNum z; sd_receiverId := rid |}) s
  = {| result := Some tt; final := s;
       emitted := [errorTo socket sendFailed] |}.
Proof.
  intros Hz. unfold sendMessage, tryCatch, bind. simpl.
  apply Z.eqb_neq in Hz. by rewrite Hz.
Qed.

(** ** The authorization gate *)

(** The run of the lookup of a conversation. *)
Lemma findById_run env v s :
  Conversation_findById env v s
  = {| result := if rejects env ConversationFindById then None
                 else lookup env s v;
       final := s; emitted := [] |}.
Proof.
  unfold Conversation_findById, lookup, bind, orThrow, await.
  destruct (castQuery env v) as [P|]; simpl.
  - by destruct (rejects env ConversationFindById).
  - by destruct (rejects env ConversationFindById).
Qed.




(** An id that does not cast makes the lookup throw: the sender gets the
    generic error, not the one of the access check. *)
Lemma send_with_uncastable_id env socket d s :
  validText (sd_text d) →
  lookup env s (sd_conversationId d) = None →
  sendMessage env socket (Some d) s
  = {| result := Some tt; final := s;
       emitted := [errorTo socket sendFailed] |}.
Proof.
  intros (t & Ht & Hne) Hfound.
  destruct (truthy_valid t Hne) as [Ht1 Ht2].
  unfold sendMessage, tryCatch. unfold bind at 1 2 3. simpl.
  rewrite Ht. simpl in *. rewrite Ht1. simpl. rewrite Ht2. simpl.
  unfold bind at 1. rewrite findById_run, Hfound.
  by destruct (rejects env ConversationFindById).
Qed.

(** ** Read receipts *)

(** C6. A mark-read for a conversation that does not exist, or of which
    the requester is not a participant, does nothing: whatever the store
    calls do, the run ends normally, emits no event (no error to the
    requester, no messages-read broadcast) and leaves the state, so every
    message with its read flag and read date, as it was. *)
Theorem mark_read_without_access_silent env socket d s :
  noAccess env s (rd_conversationId d) (userId socket) →
  markReadHandler env socket (Some d) s
  = {| result := Some tt; final := s; emitted := [] |}.
Proof.
  intros Hno.
  unfold markReadHandler, tryCatch. unfold bind at 1. simpl.
  unfold bind at 1. rewrite findById_run.
  destruct (rejects env ConversationFindById); simpl; [done|].
  unfold noAccess in Hno.
  destruct (lookup env s (rd_conversationId d)) as [[c|]|]; simpl; try done.
  by rewrite (includes_false _ _ Hno).
Qed.

Lemma mark_read_without_access_silent_witness :
  markReadHandler (quietEnv 9 "0") carolSocket
    (Some {| rd_conversationId := JStr (oid "e1") |}) demo
  = {| result := Some tt; final := demo; emitted := [] |}.
Proof.
  apply (mark_read_without_access_silent (quietEnv 9 "0") carolSocket
           {| rd_conversationId := JStr (oid "e1") |} demo).
  unfold noAccess.
  change (lookup (quietEnv 9 "0") demo
            (rd_conversationId {| rd_conversationId := JStr (oid "e1") |}))
    with (Some (Some demoConversation)).
  apply includes_stranger. vm_compute. reflexivity.
Defined.

(** The run of a mark-read by a participant of the conversation found:
    the update has the condition the payload's id makes. *)
Lemma mark_read_run env socket d s P c :
  rejects env ConversationFindById = false →
  rejects env MessageUpdateMany = false →
  castQuery env (rd_conversationId d) = Some P →
  findOne conv_id P (conversations s) = Some c →
  userId socket ∈ participants c →
  markReadHandler env socket (Some d) s
  = {| result := Some tt;
       final := set_messages (fmap (λ m,
                  if unreadFromOthers P (userId socket) m
                  then markRead env m else m)) s;
       emitted := [ {| target := ToRoomExcept
                                   (conversationRoom
                                      (toStr (rd_conversationId d)))
                                   (sock_id socket);
                       event := "messages-read";
                       payload := PMessagesRead (rd_conversationId d)
                                                (userId socket) |} ] |}.
Proof.
  intros Hf Hu HP Hc Hp.
  unfold markReadHandler, tryCatch. unfold bind at 1. simpl.
  unfold bind at 1. rewrite findById_run, Hf.
  unfold lookup. rewrite HP. simpl. rewrite Hc. simpl.
  rewrite (includes_true _ _ Hp). simpl.
  unfold bind, orThrow, Message_updateMany, await, bind.
  simpl. rewrite Hu. by simpl.
Qed.

(** The run of a mark-read whose id is a string. *)
Lemma mark_read_by_string env socket raw s i c :
  rejects env ConversationFindById = false →
  rejects env MessageUpdateMany = false →
  castObjectId raw = Some i →
  byId conv_id i (conversations s) = Some c →
  userId socket ∈ participants c →
  markReadHandler env socket (Some {| rd_conversationId := JStr raw |}) s
  = {| result := Some tt;
       final := set_messages (fmap (λ m,
                  if unreadFromOthers (eqId i) (userId socket) m
                  then markRead env m else m)) s;
       emitted := [ {| target := ToRoomExcept (conversationRoom raw)
                                              (sock_id socket);
                       event := "messages-read";
                       payload := PMessagesRead (JStr raw) (userId socket) |} ] |}.
Proof.
  intros Hf Hu Hraw Hc Hp.
  apply (mark_read_run env socket {| rd_conversationId := JStr raw |} s
           (eqId i) c); try done.
  - change (castQuery env (JStr raw) = Some (eqId i)).
    by rewrite castQuery_string, Hraw.
  - by rewrite (findOne_only conv_id (eqId i) i _ (selectsOnly_eqId i)).
Qed.

(** A mark-read whose id is a string, by a participant of the conversation
    with that id, changes exactly the messages of that conversation whose
    sender is not the requester and whose read flag is false; every other
    message is unchanged, and no message is added or removed. *)
Lemma mark_read_of_one_conversation env socket raw s i c :
  rejects env ConversationFindById = false →
  rejects env MessageUpdateMany = false →
  castObjectId raw = Some i →
  byId conv_id i (conversations s) = Some c →
  userId socket ∈ participants c →
  let s' := final (markReadHandler env socket
                     (Some {| rd_conversationId := JStr raw |}) s) in
  List.length (messages s') = List.length (messages s)
  ∧ ∀ k m, messages s !! k = Some m →
      if bool_decide (conversation m = i
                      ∧ sender m ≠ userId socket ∧ read m = false)
      then messages s' !! k
           = Some {| msg_id := msg_id m; conversation := conversation m;
                     sender := sender m; text := text m;
                     read := true; readAt := Some (now env);
                     createdAt := createdAt m |}
      else messages s' !! k = Some m.
Proof.
  intros Hf Hu Hraw Hc Hp s'. subst s'.
  rewrite (mark_read_by_string env socket raw s i c Hf Hu Hraw Hc Hp). simpl.
  split; [by rewrite length_fmap|].
  intros k m Hk. rewrite list_lookup_fmap, Hk. simpl.
  unfold unreadFromOthers, eqId.
  case_bool_decide as Hcase.
  - destruct Hcase as (Hconv & Hs & Hr).
    rewrite bool_decide_eq_true_2, bool_decide_eq_false_2, Hr by done.
    done.
  - destruct (bool_decide (conversation m = i)) eqn:E1;
      simpl; [|done].
    destruct (bool_decide (sender m = userId socket)) eqn:E2; simpl; [done|].
    destruct (read m) eqn:E3; simpl; [done|].
    exfalso. apply Hcase.
    apply bool_decide_eq_true_1 in E1. apply bool_decide_eq_false_1 in E2.
    done.
Qed.

(** C5, on the code.  The handler gives the [conversationId] of the payload
    to the lookup and to the update as it came.  bob sends a mark-read whose
    [conversationId] is the object [{"$gte": "<e1>"}], [e1] being the id of
    his conversation with alice.  The lookup finds that conversation, of
    which he is a participant; the update then has the condition of the
    object, which the conversation of carol and dave meets as well: the
    message of carol to dave, in a conversation bob is no participant of,
    becomes read.  The route of the read receipts, which filters on the id
    of the conversation it found, leaves the message as it is. *)
Theorem mark_read_reaches_other_conversations :
  let env := quietEnv 11 "0" in
  let r := markReadHandler env bobSocket (Some fromE1On) demoOthers in
  lookup env demoOthers (rd_conversationId fromE1On)
  = Some (Some demoConversation)
  ∧ userId bobSocket ∈ participants demoConversation
  ∧ messages demoOthers = [carolsMessage]
  ∧ conversation carolsMessage ≠ conv_id demoConversation
  ∧ Forall (λ c, conv_id c = conversation carolsMessage →
                 userId bobSocket ∉ participants c)
           (conversations demoOthers)
  ∧ messages (final r)
    = [ {| msg_id := oid "f1"; conversation := oid "e2"; sender := oid "c3";
           text := str "hi"; read := true; readAt := Some 11;
           createdAt := 10 |} ]
  ∧ messages (final (putRead env (mkUser "b2" "bob") (oid "e1") demoOthers))
    = [carolsMessage].
Proof.
  cbv zeta. split_and!.
  - vm_compute. reflexivity.
  - apply includes_member. vm_compute. reflexivity.
  - vm_compute. reflexivity.
  - vm_compute. discriminate.
  - apply (bool_decide_unpack _). vm_compute. exact I.
  - vm_compute. reflexivity.
  - vm_compute. reflexivity.
Qed.

(** ** Successful sends *)


Lemma byId_writeBack env (c c' : Conversation) coll :
  byId conv_id (conv_id c) coll = Some c →
  byId conv_id (conv_id c)
    ((λ x, if bool_decide (conv_id x = conv_id c) then writeBack env c' x else x)
       <$> coll)
  = Some (writeBack env c' c).
Proof.
  unfold byId. induction coll as [|x coll IH]; simpl; [done|].
  destruct (bool_decide (conv_id x = conv_id c)) eqn:E.
  - intros [= ->]. simpl. by rewrite bool_decide_eq_true_2.
  - rewrite E. apply IH.
Qed.

Lemma afterSend_conversation env socket i t c s :
  byId conv_id i (conversations s) = Some c →
  byId conv_id i (conversations (afterSend env socket i t c s))
  = Some (writeBack env (touch env c (newId env)) c).
Proof.
  intros Hc. unfold afterSend. simpl.
  pose proof (byId_id _ _ _ _ Hc) as Hid. rewrite <- Hid in Hc |- * at 1.
  by apply byId_writeBack.
Qed.



(** ** The presence registry *)



(** ** Invariants of the reachable states *)

Section Preservation.

Context (I : Server → Prop).

Lemma preserves_ret {A} (a : A) : preserves I (ret a).
Proof. by intros s. Qed.

Lemma preserves_throw {A} : preserves I (@throw A).
Proof. by intros s. Qed.

Lemma preserves_gets {A} (f : Server → A) : preserves I (gets f).
Proof. by intros s. Qed.

Lemma preserves_emit t ev p : preserves I (emit t ev p).
Proof. by intros s. Qed.

Lemma preserves_await env c : preserves I (await env c).
Proof. intros s. unfold await. by destruct (rejects env c). Qed.

Lemma preserves_orThrow {A} (x : option A) : preserves I (orThrow x).
Proof. intros s. by destruct x. Qed.

Lemma preserves_destructure {A} (data : option A) : preserves I (destructure data).
Proof. intros s. by destruct data. Qed.

Lemma preserves_callTrim v : preserves I (callTrim v).
Proof. intros s. by destruct v. Qed.

Lemma preserves_insertNew {D} (coll : Server → list D) idOf id :
  preserves I (insertNew coll idOf id).
Proof. intros s. unfold insertNew. by destruct (byId idOf id (coll s)). Qed.

Lemma preserves_uniqueParticipants ids : preserves I (uniqueParticipants ids).
Proof. intros s. unfold uniqueParticipants. by destruct (existsb _ _). Qed.

Lemma preserves_modify f : (∀ s, I s → I (f s)) → preserves I (modify f).
Proof. intros H s. apply H. Qed.

Lemma preserves_bind {A B} (m : M A) (f : A → M B) :
  preserves I m → (∀ a, preserves I (f a)) → preserves I (bind m f).
Proof.
  intros Hm Hf s Hs. unfold bind. specialize (Hm s Hs).
  destruct (m s) as [[a|] s1 e1]; simpl in *; [|done].
  specialize (Hf a s1 Hm). by destruct (f a s1).
Qed.

Lemma preserves_tryCatch {A} (m h : M A) :
  preserves I m → preserves I h → preserves I (tryCatch m h).
Proof.
  intros Hm Hh s Hs. unfold tryCatch. specialize (Hm s Hs).
  destruct (m s) as [[a|] s1 e1]; simpl in *; [done|].
  specialize (Hh s1 Hm). by destruct (h s1).
Qed.

End Preservation.

Create HintDb preserves.

#[local] Hint Resolve preserves_ret preserves_throw preserves_gets
  preserves_emit preserves_await preserves_orThrow preserves_destructure
  preserves_callTrim preserves_insertNew preserves_uniqueParticipants
  preserves_bind preserves_tryCatch : preserves.

(** Breaks a handler into its calls; what is left are its writes. *)
Ltac preserves_step :=
  match goal with
  | |- preserves _ (bind _ _) => apply preserves_bind
  | |- preserves _ (tryCatch _ _) => apply preserves_tryCatch
  | |- preserves _ (modify _) => apply preserves_modify; intros ? ?
  | |- preserves _ (if ?b then _ else _) => destruct b
  | |- preserves _ (match ?x with _ => _ end) => destruct x
  | |- ∀ _, _ => intros
  | |- _ => solve [auto with preserves]
  end.

Ltac preserves_tac := repeat preserves_step.

(** Opens the keying of the state before a write. *)
Ltac open_keyed :=
  lazymatch goal with
  | H : presenceKeyed _ |- _ => destruct H as [? ?]
  end.

Section PresenceInvariant.

Variable jwt_verify : jstring → option jstring.

Lemma presenceKeyed_init : presenceKeyed init.
Proof. split; intros ? ?; simpl; by rewrite lookup_empty. Qed.




Lemma disconnect_presence socket : preserves presenceKeyed (disconnect socket).
Proof.
  unfold disconnect. preserves_tac; try done; open_keyed.
  - split; [done|]. simpl. intros sid so Hso.
    apply lookup_delete_Some in Hso as [_ Hso]. eauto.
  - split; [|done]. simpl. intros k p Hp.
    apply lookup_delete_Some in Hp as [_ Hp]. eauto.
Qed.

Lemma connection_presence socket :
  userId socket = user_id (user socket) →
  preserves presenceKeyed (connection socket).
Proof.
  intros Hu. unfold connection. preserves_tac; try done; open_keyed.
  - split; [done|]. simpl. intros sid so Hso.
    apply lookup_insert_Some in Hso as [[<- <-] | [_ Hso]]; eauto.
  - split; [|done]. simpl. intros k p Hp.
    apply lookup_insert_Some in Hp as [[<- <-] | [_ Hp]]; eauto.
Qed.

(** The run of the middleware, by cases. *)
Lemma authenticate_run env sid token s :
  authenticate jwt_verify env sid token s
  = {| result := Some
         (if negb (truthy token) then Refused noToken
          else match token with
               | JStr t =>
                   match jwt_verify t with
                   | None => Refused invalidToken
                   | Some id =>
                       match castObjectId id with
                       | None => Refused invalidToken
                       | Some i =>
                           if rejects env UserFindById
                           then Refused invalidToken
                           else match byId user_id i (users s) with
                                | None => Refused userNotFound
                                | Some u =>
                                    Accepted {| sock_id := sid;
                                                userId := user_id u;
                                                user := withoutPassword u |}
                                end
                       end
                   end
               | _ => Refused invalidToken
               end);
       final := s; emitted := [] |}.
Proof.
  unfold authenticate, tryCatch, bind, verify, User_findById, orThrow, await.
  destruct (truthy token); simpl; [|done].
  destruct token as [| | | |t| |]; simpl; try done.
  destruct (jwt_verify t) as [id|]; simpl; [|done].
  destruct (castObjectId id) as [i|]; simpl; [|done].
  destruct (rejects env UserFindById); simpl; [done|].
  by destruct (byId user_id i (users s)).
Qed.



End PresenceInvariant.

(** ** Notification of the receiver *)


Lemma stored_id m : noLoneSurrogate (text m) = true → stored m = m.
Proof.
  intros H. destruct m. unfold stored. simpl in *.
  by rewrite (toWellFormed_id _ H).
Qed.


(** ** The scenario *)

Lemma reachable_runAll l s :
  reachable demoVerify s → reachable demoVerify (runAll l s).
Proof.
  revert s. induction l as [|[env i] l IH]; intros s Hs; [done|].
  apply IH. by constructor.
Qed.

Lemma reachable_demo : reachable demoVerify demo.
Proof. apply reachable_runAll. constructor. Qed.

Lemma reachable_demoChat : reachable demoVerify demoChat.
Proof. apply reachable_runAll, reachable_demo. Qed.

Example demo_state :
  conversations demo = [demoConversation]
  ∧ conversations demoOthers
    = [demoConversation;
       {| conv_id := oid "e2"; participants := [oid "c3"; oid "d4"];
          lastMessage := Some (oid "f1"); lastMessageAt := 10;
          conv_createdAt := 9; conv_updatedAt := 10 |}]
  ∧ oid "e1" = str "e10000000000000000000000"
  ∧ castObjectId upperE1 = Some (oid "e1").
Proof. repeat split; vm_compute; reflexivity. Qed.

(** bob has the room of the conversation open and is in his personal room:
    the new-message event and the notification both reach his socket. *)
Example bob_gets_both :
  let r := sendMessage (quietEnv 8 "f1") someSocket (Some (hello "e1" "b2")) demo in
  target <$> emitted r
  = [ToRoom (str "conversation-e10000000000000000000000");
     ToRoom (str "user-b20000000000000000000000")]
  ∧ Forall (λ e, str "s2" ∈ recipients demo (target e)) (emitted r).
Proof.
  split; [vm_compute; reflexivity|].
  apply (bool_decide_unpack _). vm_compute. exact I.
Qed.

(** alice spells the id of the conversation in upper case and ends her text
    with an unpaired surrogate.  The lookup finds the conversation and the
    message is stored under its id, with U+FFFD in the place of the
    surrogate; the event has the text as she sent it and goes to the room
    of the upper-case spelling, which nobody has joined. *)
Example send_in_other_spelling :
  let d := {| sd_conversationId := JStr upperE1;
              sd_text := JStr [32; 97; 55357]%N;
              sd_receiverId := JNull |} in
  let r := sendMessage (quietEnv 8 "f1") someSocket (Some d) demo in
  messages (final r)
  = [ {| msg_id := oid "f1"; conversation := oid "e1"; sender := oid "a1";
         text := [97; 65533]%N; read := false; readAt := None;
         createdAt := 8 |} ]
  ∧ (λ e, (target e, text <$> messageOf e)) <$> emitted r
    = [ (ToRoom (str "conversation-E10000000000000000000000"),
         Some [97; 55357]%N) ]
  ∧ recipients demo (ToRoom (str "conversation-E10000000000000000000000")) = ∅.
Proof.
  split_and!; [vm_compute; reflexivity | vm_compute; reflexivity |].
  apply (bool_decide_unpack _). vm_compute. exact I.
Qed.

(** The read flags of the three messages before and after bob's mark-read:
    the two messages of alice become read, bob's own stays unread. *)
Example bob_marks_read :
  read <$> messages demoChat = [false; false; false]
  ∧ sender <$> messages demoChat = [oid "a1"; oid "b2"; oid "a1"]
  ∧ read <$> messages (final (markReadHandler (quietEnv 11 "0") bobSocket
                                (Some {| rd_conversationId := JStr (oid "e1") |})
                                demoChat))
    = [true; false; true].
Proof. repeat split; vm_compute; reflexivity. Qed.





(** ** Find-or-create *)

Lemma find_snoc {A} (P : A → bool) l x :
  List.find P l = None → P x = true → List.find P (l ++ [x]) = Some x.
Proof.
  induction l as [|y l IH]; simpl; [by intros _ ->|].
  destruct (P y); [done|]. apply IH.
Qed.

(** The run of find-or-create when the store answers and the two ids cast:
    the conversation of the sorted pair if there is one; else a new one,
    appended, unless one of the two is in a conversation already, in which
    case the unique index refuses the new document and the call throws. *)
Lemma findOrCreate_run env a b s ids :
  rejects env ConversationFindOne = false →
  rejects env ConversationCreate = false →
  byId conv_id (newId env) (conversations s) = None →
  mapM castObjectId (sort2 a b) = Some ids →
  let found := List.find (λ c, bool_decide (participants c = ids))
                         (conversations s) in
  let made := {| conv_id := newId env; participants := ids;
                 lastMessage := None; lastMessageAt := now env;
                 conv_createdAt := now env; conv_updatedAt := now env |} in
  findOrCreate env a b s
  = match found with
    | Some c => {| result := Some c; final := s; emitted := [] |}
    | None =>
        if existsb (sharesParticipant ids) (conversations s)
        then {| result := None; final := s; emitted := [] |}
        else {| result := Some made;
                final := set_conversations (λ coll, coll ++ [made]) s;
                emitted := [] |}
    end.
Proof.
  intros Hf Hc Hfresh Hids.
  unfold findOrCreate, Conversation_findOne, Conversation_create, insertNew,
    uniqueParticipants, orThrow, bind, await.
  rewrite Hids. simpl. rewrite Hf. simpl.
  destruct (List.find _ (conversations s)) as [c|]; simpl; [done|].
  rewrite Hc. simpl. rewrite Hfresh. simpl.
  by destruct (existsb _ (conversations s)).
Qed.

Lemma findOrCreate_found env a b s ids c :
  rejects env ConversationFindOne = false →
  mapM castObjectId (sort2 a b) = Some ids →
  List.find (λ c, bool_decide (participants c = ids)) (conversations s)
  = Some c →
  findOrCreate env a b s = {| result := Some c; final := s; emitted := [] |}.
Proof.
  intros Hf Hids Hfound.
  unfold findOrCreate, Conversation_findOne, orThrow, bind, await.
  rewrite Hids. simpl. rewrite Hf. simpl. by rewrite Hfound.
Qed.

(** The ids of a pair that cast to themselves: the sorted pair casts to
    itself. *)
Lemma castIds_canonical a b :
  castObjectId a = Some a → castObjectId b = Some b →
  mapM castObjectId (sort2 a b) = Some (sort2 a b).
Proof.
  intros Ha Hb. unfold sort2. destruct (ltb b a); simpl; by rewrite Ha, Hb.
Qed.

Lemma castIds_pair a b ids :
  mapM castObjectId (sort2 a b) = Some ids → List.length ids = 2%nat.
Proof.
  intros H. apply length_mapM in H. rewrite <- H. unfold sort2.
  by destruct (ltb b a).
Qed.

Lemma sharesParticipant_false ids coll c p :
  existsb (sharesParticipant ids) coll = false →
  c ∈ coll → p ∈ ids → p ∉ participants c.
Proof.
  intros Hno Hc Hp Hin.
  assert (existsb (sharesParticipant ids) coll = true); [|congruence].
  apply existsb_exists. exists c. split; [by apply list_elem_of_In|].
  apply existsb_exists. exists p. split; [by apply list_elem_of_In|].
  by apply includes_true.
Qed.

Lemma sharesParticipant_true ids coll :
  existsb (sharesParticipant ids) coll = true →
  ∃ c p, c ∈ coll ∧ p ∈ ids ∧ p ∈ participants c.
Proof.
  intros (c & Hc & (p & Hp & Hin)%existsb_exists)%existsb_exists.
  exists c, p. split_and!; [by apply list_elem_of_In.. |].
  by apply includes_member.
Qed.

(** Under the index, with two participants in every conversation, no two
    conversation documents are of the same pair. *)
Lemma apart_onePerPair s : participantsApart s → paired s → onePerPair s.
Proof.
  intros Hapart Hpaired i j c1 c2 Hi Hj Hperm.
  unfold paired in Hpaired. rewrite Forall_forall in Hpaired.
  pose proof (Hpaired c1 (list_elem_of_lookup_2 _ _ _ Hi)) as Hlen.
  destruct (participants c1) as [|p ps] eqn:E; [done|].
  apply (Hapart i j c1 c2 p); try done.
  - rewrite E. apply elem_of_cons. by left.
  - rewrite <- Hperm. apply elem_of_cons. by left.
Qed.

Section ConversationInvariant.

Variable jwt_verify : jstring → option jstring.

Lemma indexed_init : indexed init.
Proof. split; [by intros i j c1 c2 p Hi | constructor]. Qed.

Lemma indexed_save env c s :
  indexed s →
  indexed (set_conversations (fmap (λ x,
    if bool_decide (conv_id x = conv_id c) then writeBack env c x else x)) s).
Proof.
  intros [Hapart Hpaired].
  assert (Hsame : ∀ k x,
            ((λ x, if bool_decide (conv_id x = conv_id c)
                   then writeBack env c x else x) <$> conversations s) !! k
            = Some x →
            ∃ y, conversations s !! k = Some y
                 ∧ participants x = participants y).
  { intros k x. rewrite list_lookup_fmap.
    destruct (conversations s !! k) as [y|]; simpl; [|done].
    intros [= <-]. exists y. split; [done|]. by destruct (bool_decide _). }
  split.
  - intros i j c1 c2 p Hi Hj H1 H2. simpl in Hi, Hj.
    destruct (Hsame _ _ Hi) as (y1 & Hy1 & E1).
    destruct (Hsame _ _ Hj) as (y2 & Hy2 & E2).
    rewrite E1 in H1. rewrite E2 in H2. by apply (Hapart i j y1 y2 p).
  - unfold paired. simpl. apply Forall_fmap.
    eapply Forall_impl; [exact Hpaired|].
    intros x Hx. simpl. by destruct (bool_decide _).
Qed.

Lemma indexed_create c s :
  indexed s →
  existsb (sharesParticipant (participants c)) (conversations s) = false →
  List.length (participants c) = 2%nat →
  indexed (set_conversations (λ coll, coll ++ [c]) s).
Proof.
  intros [Hapart Hpaired] Hno Hlen. split.
  - intros i j c1 c2 p Hi Hj H1 H2. simpl in Hi, Hj.
    apply lookup_app_Some in Hi as [Hi | [Hi Hi']];
      apply lookup_app_Some in Hj as [Hj | [Hj Hj']].
    + by apply (Hapart i j c1 c2 p).
    + apply list_lookup_singleton_Some in Hj' as [_ <-].
      by destruct (sharesParticipant_false _ _ c1 p Hno
                     (list_elem_of_lookup_2 _ _ _ Hi) H2).
    + apply list_lookup_singleton_Some in Hi' as [_ <-].
      by destruct (sharesParticipant_false _ _ c2 p Hno
                     (list_elem_of_lookup_2 _ _ _ Hj) H1).
    + apply list_lookup_singleton_Some in Hi' as [Hi' _].
      apply list_lookup_singleton_Some in Hj' as [Hj' _]. lia.
  - unfold paired. simpl. apply Forall_app. split; [done|].
    by constructor.
Qed.

Lemma sendMessage_indexed env socket data :
  preserves indexed (sendMessage env socket data).
Proof.
  unfold sendMessage, Conversation_findById, Message_save, Message_populate,
    Conversation_save.
  preserves_tac; try done. by apply indexed_save.
Qed.

Lemma markRead_indexed env socket data :
  preserves indexed (markReadHandler env socket data).
Proof.
  unfold markReadHandler, Conversation_findById, Message_updateMany.
  preserves_tac; done.
Qed.

Lemma findOrCreate_indexed env a b :
  preserves indexed (findOrCreate env a b).
Proof.
  intros s Hs.
  unfold findOrCreate, Conversation_findOne, Conversation_create, insertNew,
    uniqueParticipants, orThrow, bind, await.
  destruct (mapM castObjectId (sort2 a b)) as [ids|] eqn:Hids; simpl; [|done].
  destruct (rejects env ConversationFindOne); simpl; [done|].
  destruct (List.find _ (conversations s)) as [c|] eqn:Hfind; simpl; [done|].
  destruct (rejects env ConversationCreate); simpl; [done|].
  destruct (byId conv_id (newId env) (conversations s)); simpl; [done|].
  destruct (existsb _ (conversations s)) eqn:Hno; simpl; [done|].
  apply indexed_create; [done | done |]. simpl. by eapply castIds_pair.
Qed.

Lemma step_indexed env i : preserves indexed (step jwt_verify env i).
Proof.
  destruct i; simpl; unfold onSocket.
  - apply preserves_bind; [auto with preserves|]. intros [known|]; [auto with preserves|].
    apply preserves_bind.
    + unfold authenticate, verify, User_findById. preserves_tac.
    + intros [socket|m]; [|auto with preserves].
      unfold connection. preserves_tac; done.
  - unfold joinConversation. preserves_tac; done.
  - unfold leaveConversation. preserves_tac; done.
  - preserves_tac; apply sendMessage_indexed.
  - unfold typing. preserves_tac.
  - preserves_tac; apply markRead_indexed.
  - unfold disconnect. preserves_tac; done.
  - preserves_tac; apply findOrCreate_indexed.
  - unfold getMessages, Conversation_findById, Message_find. preserves_tac.
  - unfold putRead, Conversation_findById, Message_updateMany.
    preserves_tac; done.
  - preserves_tac; done.
Qed.

(** In every state the server reaches, two conversation documents have no
    participant in common, and every conversation has two participants. *)
Lemma reachable_indexed s : reachable jwt_verify s → indexed s.
Proof.
  induction 1 as [|s env i _ IH]; [apply indexed_init|].
  by apply step_indexed.
Qed.

(** In every state the server reaches, no two conversation documents are
    of the same unordered pair. *)
Lemma reachable_onePerPair s : reachable jwt_verify s → onePerPair s.
Proof. intros [? ?]%reachable_indexed. by apply apart_onePerPair. Qed.

End ConversationInvariant.

(** C7, on the code.  The unique index of the schema is on the array of
    participants, so it has a key for every participant, and the store
    refuses a conversation one of whose participants is in a stored
    conversation.  alice has a conversation with bob.  The find-or-create
    of alice and carol, in either order, with a store in which nothing else
    rejects, finds no conversation of the two, tries to create one and
    throws: no conversation is returned and none is made; the route that
    calls it answers 500.  For two users in no conversation the call does
    return a conversation of the sorted pair, the same in either order. *)
Theorem findOrCreate_refused_for_second_partner :
  let env := quietEnv 8 "e2" in
  let r1 := findOrCreate env (oid "a1") (oid "c3") demo in
  let r2 := findOrCreate env (oid "c3") (oid "a1") demo in
  conversations demo
  = [ {| conv_id := oid "e1"; participants := [oid "a1"; oid "b2"];
         lastMessage := None; lastMessageAt := 5;
         conv_createdAt := 5; conv_updatedAt := 5 |} ]
  ∧ result r1 = None ∧ final r1 = demo
  ∧ result r2 = None ∧ final r2 = demo
  ∧ result (getConversation (quietRest 8 "e2") (friend "a1" "alice" "c3")
              (oid "c3")
              (runAll [(quietEnv 8 "0",
                        UsersChanged [friend "a1" "alice" "c3";
                                      mkUser "b2" "bob";
                                      friend "c3" "carol" "a1"])] demo))
    = Some (ConversationStatus 500 "Failed to get conversation")
  ∧ (let r3 := findOrCreate env (oid "d4") (oid "c3") demo in
     ∃ c, result r3 = Some c
          ∧ participants c = [oid "c3"; oid "d4"]
          ∧ result (findOrCreate (quietEnv 9 "e3") (oid "c3") (oid "d4")
                      (final r3)) = Some c).
Proof.
  cbv zeta. split_and!; try (vm_compute; reflexivity).
  eexists. split_and!; vm_compute; reflexivity.
Qed.

(** ** Connection authentication *)

Section AuthenticationFacts.

Variable jwt_verify : jstring → option jstring.

(** C8, as the code has it.  A connection attempt that fails
    authentication is refused, with nothing written and nothing emitted,
    by an error whose message starts with "Authentication error: " and
    names the cause: "No token provided" exactly for a missing (falsy)
    token, "User not found" exactly for a token that verifies and decodes
    to an id no stored user has, "Invalid token" exactly for a token that
    does not verify or whose user lookup throws (the id does not cast, or
    the store rejects the call). *)
Theorem authentication_failure_names_cause env sid token s :
  let r := authenticate jwt_verify env sid token s in
  (∀ socket, result r ≠ Some (Accepted socket)) →
  ∃ m, result r = Some (Refused m)
       ∧ final r = s ∧ emitted r = []
       ∧ String.prefix "Authentication error: " m = true
       ∧ (m = noToken ↔ truthy token = false)
       ∧ (m = userNotFound ↔
            truthy token = true
            ∧ ∃ id i, decodesTo jwt_verify token id
                      ∧ castObjectId id = Some i
                      ∧ rejects env UserFindById = false
                      ∧ byId user_id i (users s) = None)
       ∧ (m = invalidToken ↔
            truthy token = true
            ∧ (unverifiable jwt_verify token
               ∨ ∃ id, decodesTo jwt_verify token id
                       ∧ (castObjectId id = None
                          ∨ rejects env UserFindById = true))).
Proof.
  intros r Hfail. subst r. revert Hfail.
  rewrite authenticate_run. simpl. unfold unverifiable, decodesTo.
  destruct (truthy token) eqn:Htruthy; simpl.
  2:{ intros _. exists noToken. repeat split; try done.
      - by intros [? _]. - by intros [? _]. }
  destruct token as [| | | |t| |]; simpl; try discriminate Htruthy;
    try (intros _; exists invalidToken; split_and!; try done;
         [ split; [done|]; by intros (_ & ? & ? & (? & ? & ?) & _)
         | split; [|done]; intros _; split; [done|]; left; by intros ? ]).
  destruct (jwt_verify t) as [id|] eqn:Hjwt.
  2:{ intros _. exists invalidToken. split_and!; try done.
      - split; [done|].
        intros (_ & id & i & (t' & [= <-] & Ht') & _). congruence.
      - split; [|done]. intros _. split; [done|]. left. by intros t' [= <-]. }
  destruct (castObjectId id) as [i|] eqn:Hcast.
  2:{ intros _. exists invalidToken. split_and!; try done.
      - split; [done|].
        intros (_ & id' & i' & (t' & [= <-] & Ht') & Hc & _). congruence.
      - split; [|done]. intros _. split; [done|]. right. exists id.
        split; [by exists t | by left]. }
  destruct (rejects env UserFindById) eqn:Hrej.
  { intros _. exists invalidToken. split_and!; try done.
    - split; [done|]. by intros (_ & ? & ? & _ & _ & ? & _).
    - split; [|done]. intros _. split; [done|]. right. exists id.
      split; [by exists t | by right]. }
  destruct (byId user_id i (users s)) as [u|] eqn:Hu.
  { intros Hfail. by edestruct Hfail. }
  intros _. exists userNotFound. split_and!; try done.
  - split; [|done]. intros _. split; [done|]. exists id, i.
    split; [by exists t|done].
  - split; [done|].
    intros [_ [Hun | (id' & (t' & [= <-] & Ht') & [Hc | Hr])]].
    + specialize (Hun t eq_refl). congruence.
    + congruence.
    + congruence.
Qed.

End AuthenticationFacts.

(** A garbage token and the token of a user that is not stored are both
    refused, with different messages: the client can tell the two causes
    apart. *)
Lemma authentication_failures_differ :
  let bad := authenticate demoVerify (quietEnv 9 "0") (str "s9")
               (JStr (str "garbage")) demo in
  let gone := authenticate demoVerify (quietEnv 9 "0") (str "s9")
                (tokenOf "d4") demo in
  result bad = Some (Refused invalidToken)
  ∧ result gone = Some (Refused userNotFound)
  ∧ result bad ≠ result gone.
Proof. vm_compute. by repeat split. Qed.

Lemma authentication_failure_names_cause_witness :
  ∃ m, result (authenticate demoVerify (quietEnv 9 "0") (str "s9")
                 (tokenOf "d4") demo) = Some (Refused m)
       ∧ m = userNotFound.
Proof.
  destruct (authentication_failure_names_cause demoVerify (quietEnv 9 "0")
              (str "s9") (tokenOf "d4") demo)
    as (m & Hm & _ & _ & _ & _ & Hgone & _).
  - intros socket. vm_compute. discriminate.
  - exists m. split; [exact Hm|]. apply Hgone.
    split; [reflexivity|]. exists (oid "d4"), (oid "d4"). split_and!.
    + exists (str "t-" ++ oid "d4"). split; reflexivity.
    + reflexivity.
    + reflexivity.
    + vm_compute. reflexivity.
Defined.

(** ** Message history *)

#[local] Instance olderOrSame_total : Total olderOrSame.
Proof. intros a b. unfold olderOrSame. lia. Qed.

#[local] Instance olderOrSame_trans : Transitive olderOrSame.
Proof. intros a b c. unfold olderOrSame. lia. Qed.

(** The run of the history read of a participant, when the store answers. *)
Lemma getMessages_run env reqUser conversationId s c :
  rejects env ConversationFindById = false →
  rejects env MessageFind = false →
  lookup env s (JStr conversationId) = Some (Some c) →
  user_id reqUser ∈ participants c →
  getMessages env reqUser conversationId s
  = {| result := Some (Json
         ((λ m, {| doc := m;
                   populatedSender :=
                     senderInfo <$> byId user_id (sender m) (users s) |})
          <$> take historyLimit
                (merge_sort olderOrSame (thread s (conv_id c)))));
       final := s; emitted := [] |}.
Proof.
  intros Hf Hm Hc Hp.
  unfold getMessages, tryCatch. unfold bind at 1.
  rewrite findById_run, Hf, Hc.
  unfold bind, Message_find, await. simpl.
  rewrite (includes_true _ _ Hp). simpl. by rewrite Hm.
Qed.

(** X15. The history read returns the oldest messages: at most 100 of the
    conversation, oldest first, and every message of the conversation it
    leaves out is at least as recent as every one it returns. *)
Lemma getMessages_oldest env reqUser conversationId s c l :
  rejects env ConversationFindById = false →
  rejects env MessageFind = false →
  lookup env s (JStr conversationId) = Some (Some c) →
  user_id reqUser ∈ participants c →
  result (getMessages env reqUser conversationId s) = Some (Json l) →
  List.length l = (historyLimit `min` List.length (thread s (conv_id c)))%nat
  ∧ StronglySorted olderOrSame (doc <$> l)
  ∧ ∀ m m', m ∈ doc <$> l → m' ∈ thread s (conv_id c) →
            m' ∉ doc <$> l → createdAt m ≤ createdAt m'.
Proof.
  intros Hf Hm Hc Hp.
  rewrite (getMessages_run env reqUser conversationId s c Hf Hm Hc Hp). simpl.
  intros [= <-]. rewrite <- list_fmap_compose.
  rewrite (list_fmap_ext _ id (take historyLimit
             (merge_sort olderOrSame (thread s (conv_id c)))))
    by done.
  rewrite list_fmap_id, length_fmap, length_take.
  pose proof (merge_sort_Permutation olderOrSame (thread s (conv_id c))) as Hperm.
  pose proof (StronglySorted_merge_sort olderOrSame (thread s (conv_id c))) as Hsorted.
  rewrite <- (take_drop historyLimit (merge_sort _ _)) in Hsorted.
  split; [by rewrite Hperm|]. split.
  - by apply StronglySorted_app_1_l in Hsorted.
  - intros m m' Hin Hthread Hout.
    eapply (StronglySorted_app_1_elem_of olderOrSame); [exact Hsorted|done|].
    rewrite <- Hperm, <- (take_drop historyLimit (merge_sort _ _)) in Hthread.
    apply elem_of_app in Hthread as [?|?]; done.
Qed.

(** C9, on the code.  In a conversation of 101 messages, created at the
    times 101 to 201, the history read returns the 100 messages created at
    101 to 200, the oldest ones, in ascending order: the most recent
    message, created at 201, is not among them. *)
Theorem history_leaves_out_newest :
  let r := getMessages (quietEnv 300 "0") (mkUser "a1" "alice") (oid "e1")
             longChat in
  List.length (thread longChat (oid "e1")) = 101%nat
  ∧ ∃ l,
      result r = Some (Json l)
      ∧ (λ m, createdAt (doc m)) <$> l
        = (λ i : nat, 100 + Z.of_nat i) <$> seq 1 100
      ∧ newestMessage ∈ thread longChat (oid "e1")
      ∧ Forall (λ m, createdAt m ≤ createdAt newestMessage)
               (thread longChat (oid "e1"))
      ∧ newestMessage ∉ doc <$> l.
Proof.
  cbv zeta. split; [vm_compute; reflexivity|].
  eexists. split; [vm_compute; reflexivity|].
  split; [vm_compute; reflexivity|].
  split; [|split].
  - apply (bool_decide_unpack _). vm_compute. exact I.
  - apply (bool_decide_unpack _). vm_compute. exact I.
  - apply (bool_decide_unpack _). vm_compute. exact I.
Qed.

(** * Further properties of the messaging core *)

(** ** Rooms *)

Lemma userRoom_inj a b : userRoom a = userRoom b → a = b.
Proof. unfold userRoom. apply app_inv_head. Qed.


Lemma userRoom_not_conversationRoom u c : userRoom u ≠ conversationRoom c.
Proof. unfold userRoom, conversationRoom. vm_compute. discriminate. Qed.

Lemma elem_of_members s room sid : sid ∈ members s room ↔ (room, sid) ∈ rooms s.
Proof.
  unfold members. rewrite elem_of_map. split.
  - intros ([r x] & -> & [Hr Hin]%elem_of_filter). simpl in *. by subst.
  - intros H. exists (room, sid). split; [done|]. by apply elem_of_filter.
Qed.

Lemma preserves_onSocket (I : Server → Prop) sid (h : Socket → M unit) :
  (∀ s socket, I s → sockets s !! sid = Some socket → I (final (h socket s))) →
  preserves I (onSocket sid h).
Proof.
  intros H s Hs. unfold onSocket, bind, gets.
  destruct (sockets s !! sid) as [socket|] eqn:Hsid; [|done].
  specialize (H s socket Hs Hsid). by destruct (h socket s).
Qed.

(** Handlers that write to the store only keep what holds of the sockets. *)
Lemma sendMessage_wired env socket data :
  preserves wired (sendMessage env socket data).
Proof.
  unfold sendMessage, Conversation_findById, Message_save, Message_populate,
    Conversation_save.
  preserves_tac; done.
Qed.

Lemma markRead_wired env socket data :
  preserves wired (markReadHandler env socket data).
Proof.
  unfold markReadHandler, Conversation_findById, Message_updateMany.
  preserves_tac; done.
Qed.

Lemma findOrCreate_wired env a b : preserves wired (findOrCreate env a b).
Proof.
  unfold findOrCreate, Conversation_findOne, Conversation_create.
  preserves_tac; done.
Qed.

Lemma joinConversation_wired s socket sid c :
  wired s → sockets s !! sid = Some socket →
  wired (final (joinConversation socket c s)).
Proof.
  intros [Hkey (Ha & Hb & Hc & He & Hf)] Hsid.
  destruct (proj2 Hkey sid socket Hsid) as [Hid _].
  split; [done|]. unfold joinConversation. simpl. split_and!; try done.
  - intros room sid' [Heq%elem_of_singleton | Hin]%elem_of_union; [|eauto].
    apply pair_equal_spec in Heq as [-> ->]. rewrite Hid. eauto.
  - intros u sid' [Heq%elem_of_singleton | Hin]%elem_of_union; [|eauto].
    apply pair_equal_spec in Heq as [Heq _].
    by apply userRoom_not_conversationRoom in Heq.
  - intros sid' socket' Hs'. apply elem_of_union. right. eauto.
Qed.

Lemma leaveConversation_wired s socket c :
  wired s → wired (final (leaveConversation socket c s)).
Proof.
  intros [Hkey (Ha & Hb & Hc & He & Hf)].
  split; [done|]. unfold leaveConversation. simpl. split_and!; try done.
  - intros room sid' [Hin _]%elem_of_difference. eauto.
  - intros u sid' [Hin _]%elem_of_difference. eauto.
  - intros sid' socket' Hs'. apply elem_of_difference. split; [eauto|].
    intros Heq%elem_of_singleton. apply pair_equal_spec in Heq as [Heq _].
    by apply userRoom_not_conversationRoom in Heq.
Qed.

Lemma disconnect_wired s socket sid :
  wired s → sockets s !! sid = Some socket →
  wired (final (disconnect socket s)).
Proof.
  intros Hw Hsid. split.
  { by apply disconnect_presence, Hw. }
  destruct Hw as [Hkey (Ha & Hb & Hc & He & Hf)].
  destruct (proj2 Hkey sid socket Hsid) as [Hid Hu].
  unfold disconnect, bind, modify, emit. simpl.
  unfold set_activeUsers, set_rooms, set_sockets, socketsSound. simpl.
  rewrite Hid.
  split_and!.
  - intros room sid' [Hne Hin]%elem_of_filter. simpl in Hne.
    rewrite lookup_delete_ne by done. eauto.
  - intros u sid' [Hne Hin]%elem_of_filter. simpl in Hne.
    rewrite lookup_delete_ne by done. eauto.
  - intros sid' socket' [Hne Hs']%lookup_delete_Some.
    apply elem_of_filter. split; [by simpl | eauto].
  - intros k p [Hne Hp]%lookup_delete_Some.
    destruct (He k p Hp) as (socket' & Hs' & Hk & Hpu).
    exists socket'. split; [|done].
    rewrite lookup_delete_ne; [done|]. intros Heq.
    rewrite <- Heq, Hsid in Hs'. injection Hs' as <-. done.
  - intros sid' socket' [Hne Hs']%lookup_delete_Some. eauto.
Qed.

Lemma connection_wired s socket :
  wired s → sockets s !! sock_id socket = None →
  userId socket = user_id (user socket) →
  password (user socket) = None →
  wired (final (connection socket s)).
Proof.
  intros Hw Hfresh Hu Hpw. split.
  { by apply connection_presence, Hw. }
  destruct Hw as [Hkey (Ha & Hb & Hc & He & Hf)].
  unfold connection, bind, modify, emit. simpl.
  unfold set_activeUsers, set_rooms, set_sockets, socketsSound. simpl.
  assert (Hother : ∀ sid' x, sockets s !! sid' = Some x → sock_id socket ≠ sid').
  { intros sid' x Hx <-. congruence. }
  split_and!.
  - intros room sid' [Heq%elem_of_singleton | Hin]%elem_of_union.
    + apply pair_equal_spec in Heq as [-> ->]. rewrite lookup_insert_eq. eauto.
    + destruct (Ha _ _ Hin) as [x Hx].
      rewrite lookup_insert_ne by eauto. eauto.
  - intros u sid' [Heq%elem_of_singleton | Hin]%elem_of_union.
    + apply pair_equal_spec in Heq as [Heq ->]. apply userRoom_inj in Heq as ->.
      rewrite lookup_insert_eq. eauto.
    + destruct (Hb _ _ Hin) as (x & Hx & Hxu).
      rewrite lookup_insert_ne by eauto. eauto.
  - intros sid' socket' [[<- <-] | [Hne Hs']]%lookup_insert_Some.
    + apply elem_of_union. left. by apply elem_of_singleton.
    + apply elem_of_union. right. eauto.
  - intros k p [[<- <-] | [Hne Hp]]%lookup_insert_Some; simpl.
    + exists socket. by rewrite lookup_insert_eq.
    + destruct (He k p Hp) as (x & Hx & Hk & Hpu).
      exists x. rewrite lookup_insert_ne by eauto. done.
  - intros sid' socket' [[<- <-] | [Hne Hs']]%lookup_insert_Some; eauto.
Qed.

Section Wiring.

Variable jwt_verify : jstring → option jstring.

Lemma wired_init : wired init.
Proof.
  split; [apply presenceKeyed_init|].
  unfold socketsSound. simpl. split_and!.
  - intros ?? H. by apply elem_of_empty in H.
  - intros ?? H. by apply elem_of_empty in H.
  - intros ?? H. by rewrite lookup_empty in H.
  - intros ?? H. by rewrite lookup_empty in H.
  - intros ?? H. by rewrite lookup_empty in H.
Qed.

Lemma step_wired env i : preserves wired (step jwt_verify env i).
Proof.
  destruct i; simpl.
  - intros s Hs. unfold bind at 1. unfold gets at 1.
    destruct (sockets s !! sid) as [known|] eqn:Hsid; [done|].
    unfold bind. rewrite authenticate_run.
    destruct (negb (truthy token)); [done|].
    destruct token as [| | | |t| |]; try done.
    destruct (jwt_verify t) as [id|]; [|done].
    destruct (castObjectId id) as [k|]; [|done].
    destruct (rejects env UserFindById); [done|].
    destruct (byId user_id k (users s)) as [u|]; [|done].
    match goal with
    | |- context [connection ?so s] =>
        pose proof (connection_wired s so Hs Hsid eq_refl eq_refl) as Hconn;
        by destruct (connection so s)
    end.
  - apply preserves_onSocket. intros. by eapply joinConversation_wired.
  - apply preserves_onSocket. intros. by apply leaveConversation_wired.
  - apply preserves_onSocket. intros. by apply sendMessage_wired.
  - apply preserves_onSocket. intros. unfold typing.
    match goal with |- wired (final (?m s)) => assert (preserves wired m) as Hp end.
    { preserves_tac. }
    by apply Hp.
  - apply preserves_onSocket. intros. by apply markRead_wired.
  - apply preserves_onSocket. intros. by eapply disconnect_wired.
  - preserves_tac; apply findOrCreate_wired.
  - unfold getMessages, Conversation_findById, Message_find. preserves_tac.
  - unfold putRead, Conversation_findById, Message_updateMany.
    preserves_tac; done.
  - preserves_tac; done.
Qed.

Lemma reachable_wired s : reachable jwt_verify s → wired s.
Proof.
  induction 1 as [|s env i _ IH]; [apply wired_init|].
  by apply step_wired.
Qed.

End Wiring.

Lemma reachable_demoTwice : reachable demoVerify demoTwice.
Proof. apply reachable_runAll, reachable_demo. Qed.

(** X1. In every state the server reaches, the personal room of a user
    holds exactly the connected sockets that authenticated as that user:
    a socket of another user never gets what is sent to the room, and no
    join or leave of a conversation takes a socket out of it. *)
Theorem personal_room_is_the_users_sockets jwt_verify s u sid :
  reachable jwt_verify s →
  sid ∈ recipients s (ToRoom (userRoom u))
  ↔ ∃ socket, sockets s !! sid = Some socket ∧ userId socket = u.
Proof.
  intros [_ (_ & Hb & Hc & _)]%reachable_wired. simpl.
  rewrite elem_of_members. split; [apply Hb|].
  intros (socket & Hs & <-). by apply Hc.
Qed.

Lemma personal_room_is_the_users_sockets_witness :
  str "s2" ∈ recipients demo (ToRoom (userRoom (oid "b2")))
  ↔ ∃ socket, sockets demo !! str "s2" = Some socket ∧ userId socket = oid "b2".
Proof.
  apply (personal_room_is_the_users_sockets demoVerify demo (oid "b2") (str "s2")).
  exact reachable_demo.
Defined.

(** X2. In every state the server reaches, a presence entry is that of a
    socket that is connected and authenticated as the user the entry is
    stored under; the user document it holds is the one of that socket and
    has no password. *)
Theorem presence_entry_is_connected_socket jwt_verify s k p :
  reachable jwt_verify s →
  activeUsers s !! k = Some p →
  ∃ socket, sockets s !! socketId p = Some socket
            ∧ userId socket = k
            ∧ presentUser p = user socket
            ∧ password (presentUser p) = None.
Proof.
  intros [_ (_ & _ & _ & He & Hf)]%reachable_wired Hp.
  destruct (He k p Hp) as (socket & Hs & Hk & Hu).
  exists socket. split_and!; try done. rewrite Hu. eauto.
Qed.

Lemma presence_entry_is_connected_socket_witness :
  ∃ socket, sockets demo !! str "s2" = Some socket
            ∧ userId socket = oid "b2"
            ∧ user bobSocket = user socket
            ∧ password (user bobSocket) = None.
Proof.
  apply (presence_entry_is_connected_socket demoVerify demo (oid "b2")
           {| socketId := str "s2"; presentUser := user bobSocket |}).
  - exact reachable_demo.
  - vm_compute. reflexivity.
Defined.



(** alice sends to the conversation spelling its id in upper case: bob, who
    joined the room of the lower-case spelling, does not get the
    new-message event, though the message is stored in the conversation. *)
Example other_spelling_misses_the_room :
  let d := {| sd_conversationId := JStr upperE1;
              sd_text := JStr (str "hi");
              sd_receiverId := JNull |} in
  let r := sendMessage (quietEnv 8 "f1") someSocket (Some d) demo in
  conversation <$> messages (final r) = [oid "e1"]
  ∧ str "s2" ∈ members demo (str "conversation-e10000000000000000000000")
  ∧ Forall (λ e, str "s2" ∉ recipients (final r) (target e)) (emitted r).
Proof.
  split_and!; [vm_compute; reflexivity | |];
    apply (bool_decide_unpack _); vm_compute; exact I.
Qed.

(** X4. After the disconnect of a connected socket, in a state the server
    reaches, the socket is gone and is a recipient of no emission, whatever
    its target. *)
Theorem disconnected_socket_receives_nothing jwt_verify env s sid socket :
  reachable jwt_verify s →
  sockets s !! sid = Some socket →
  let s' := final (step jwt_verify env (Disconnect sid) s) in
  sockets s' !! sid = None ∧ ∀ t, sid ∉ recipients s' t.
Proof.
  intros [[_ Hkey] _]%reachable_wired Hsid s'. subst s'.
  destruct (Hkey sid socket Hsid) as [Hid _].
  simpl. unfold onSocket, bind, gets. rewrite Hsid.
  unfold disconnect, bind, modify, emit. simpl.
  unfold set_activeUsers, set_rooms, set_sockets. simpl. rewrite Hid.
  split; [apply lookup_delete_eq|].
  assert (Hroom : ∀ room, sid ∉ members
            {| users := users s; conversations := conversations s;
               messages := messages s;
               activeUsers := delete (userId socket) (activeUsers s);
               rooms := filter (λ p, p.2 ≠ sid) (rooms s);
               sockets := delete sid (sockets s) |} room).
  { intros room. rewrite elem_of_members. simpl.
    by intros [Hne _]%elem_of_filter. }
  intros [x|room|room x|x]; simpl.
  - intros [_ Hdom]%elem_of_intersection.
    apply elem_of_dom in Hdom as [y Hy]. by rewrite lookup_delete_eq in Hy.
  - apply Hroom.
  - intros [Hin _]%elem_of_difference. by apply Hroom in Hin.
  - intros [Hdom _]%elem_of_difference.
    apply elem_of_dom in Hdom as [y Hy]. by rewrite lookup_delete_eq in Hy.
Qed.

Lemma disconnected_socket_receives_nothing_witness :
  let s' := final (step demoVerify (quietEnv 8 "0") (Disconnect (str "s2")) demo) in
  sockets s' !! str "s2" = None ∧ ∀ t, str "s2" ∉ recipients s' t.
Proof.
  apply (disconnected_socket_receives_nothing demoVerify (quietEnv 8 "0") demo
           (str "s2") bobSocket).
  - exact reachable_demo.
  - vm_compute. reflexivity.
Defined.

(** ** Connecting and disconnecting *)

Lemma server_eq (a b : Server) :
  users a = users b → conversations a = conversations b →
  messages a = messages b → activeUsers a = activeUsers b →
  rooms a = rooms b → sockets a = sockets b → a = b.
Proof. destruct a, b. simpl. by intros -> -> -> -> -> ->. Qed.

(** The run of a connection that authenticates. *)
Lemma connect_run jwt_verify env s sid t id i u :
  sockets s !! sid = None →
  t ≠ [] → jwt_verify t = Some id →
  castObjectId id = Some i →
  rejects env UserFindById = false →
  byId user_id i (users s) = Some u →
  step jwt_verify env (Connect sid (JStr t)) s
  = {| result := Some tt;
       final :=
         {| users := users s; conversations := conversations s;
            messages := messages s;
            activeUsers :=
              <[user_id u := {| socketId := sid;
                                presentUser := withoutPassword u |}]>
                (activeUsers s);
            rooms := {[ (userRoom (user_id u), sid) ]} ∪ rooms s;
            sockets :=
              <[sid := {| sock_id := sid; userId := user_id u;
                          user := withoutPassword u |}]> (sockets s) |};
       emitted := [ {| target := ToAllExcept sid; event := "user-online";
                       payload := PUserId (user_id u) |} ] |}.
Proof.
  intros Hsid Ht Hjwt Hcast Hrej Hu.
  assert (Hauth : authenticate jwt_verify env sid (JStr t) s
                  = {| result := Some (Accepted
                         {| sock_id := sid; userId := user_id u;
                            user := withoutPassword u |});
                       final := s; emitted := [] |}).
  { rewrite authenticate_run. simpl.
    rewrite bool_decide_eq_false_2 by done. simpl.
    by rewrite Hjwt, Hcast, Hrej, Hu. }
  unfold step, bind, gets. rewrite Hsid, Hauth. reflexivity.
Qed.

(** X5. Opening a socket and closing it again undoes itself: in a state
    the server reaches, if the socket id is not in use, the token verifies
    to a stored user, the lookup answers and the user has no presence entry
    yet, then after the connection and the disconnect the server is in the
    state it started from.  The others get user-online, then
    user-offline. *)
Theorem connect_disconnect_round_trip jwt_verify env1 env2 s sid t id i u :
  reachable jwt_verify s →
  sockets s !! sid = None →
  t ≠ [] → jwt_verify t = Some id →
  castObjectId id = Some i →
  rejects env1 UserFindById = false →
  byId user_id i (users s) = Some u →
  activeUsers s !! user_id u = None →
  let r1 := step jwt_verify env1 (Connect sid (JStr t)) s in
  let r2 := step jwt_verify env2 (Disconnect sid) (final r1) in
  final r2 = s
  ∧ emitted r1 = [ {| target := ToAllExcept sid; event := "user-online";
                      payload := PUserId (user_id u) |} ]
  ∧ emitted r2 = [ {| target := ToAllExcept sid; event := "user-offline";
                      payload := PUserId (user_id u) |} ].
Proof.
  intros [_ (Ha & _)]%reachable_wired Hsid Ht Hjwt Hcast Hrej Hu Hact r1 r2.
  subst r1 r2.
  rewrite (connect_run jwt_verify env1 s sid t id i u Hsid Ht Hjwt Hcast Hrej Hu).
  unfold step, onSocket, disconnect, bind, modify, emit, gets. simpl.
  rewrite lookup_insert_eq. simpl.
  split; [|done].
  apply server_eq; simpl; try done.
  - by apply delete_insert_id.
  - apply set_eq. intros [room x].
    rewrite elem_of_filter, elem_of_union, elem_of_singleton. simpl. split.
    + intros [Hne [Heq | Hin]]; [|done].
      by apply pair_equal_spec in Heq as [_ ->].
    + intros Hin. split; [|by right].
      intros ->. destruct (Ha _ _ Hin) as [y Hy]. congruence.
  - by apply delete_insert_id.
Qed.

(** A user that is registered but not connected opens a socket and closes
    it. *)
Lemma connect_disconnect_round_trip_witness :
  let s := runAll [ (quietEnv 8 "0", UsersChanged
                       (demoUsers ++ [mkUser "d4" "dave"])) ] demo in
  let r1 := step demoVerify (quietEnv 9 "0")
              (Connect (str "s5") (tokenOf "d4")) s in
  let r2 := step demoVerify (quietEnv 10 "0") (Disconnect (str "s5")) (final r1) in
  final r2 = s
  ∧ emitted r1 = [ {| target := ToAllExcept (str "s5"); event := "user-online";
                      payload := PUserId (user_id (mkUser "d4" "dave")) |} ]
  ∧ emitted r2 = [ {| target := ToAllExcept (str "s5"); event := "user-offline";
                      payload := PUserId (user_id (mkUser "d4" "dave")) |} ].
Proof.
  apply (connect_disconnect_round_trip demoVerify (quietEnv 9 "0")
           (quietEnv 10 "0") _ (str "s5") (str "t-" ++ oid "d4") (oid "d4")
           (oid "d4") (mkUser "d4" "dave")).
  - apply reachable_runAll, reachable_demo.
  - vm_compute. reflexivity.
  - vm_compute. discriminate.
  - reflexivity.
  - reflexivity.
  - reflexivity.
  - vm_compute. reflexivity.
  - vm_compute. reflexivity.
Defined.

(** X6. The registry follows the last event of a user, not its sockets: in
    a state the server reaches, when two sockets of one user are connected
    and one of them disconnects, the other stays connected but the user has
    no presence entry any more. *)
Theorem disconnect_of_one_socket_hides_user jwt_verify env s sid1 sid2 so1 so2 :
  reachable jwt_verify s →
  sockets s !! sid1 = Some so1 →
  sockets s !! sid2 = Some so2 →
  sid1 ≠ sid2 →
  userId so1 = userId so2 →
  let s' := final (step jwt_verify env (Disconnect sid1) s) in
  sockets s' !! sid2 = Some so2
  ∧ activeUsers s' !! userId so2 = None
  ∧ present s' (JStr (userId so2)) = false.
Proof.
  intros [[_ Hkey] _]%reachable_wired H1 H2 Hne Hu s'. subst s'.
  destruct (Hkey sid1 so1 H1) as [Hid _].
  simpl. unfold onSocket, bind, gets. rewrite H1.
  unfold disconnect, bind, modify, emit. simpl.
  unfold set_activeUsers, set_rooms, set_sockets. simpl.
  rewrite Hid, Hu. split_and!.
  - by rewrite lookup_delete_ne.
  - apply lookup_delete_eq.
  - apply bool_decide_eq_false_2. rewrite lookup_delete_eq. by intros [? ?].
Qed.

Lemma disconnect_of_one_socket_hides_user_witness :
  let s' := final (step demoVerify (quietEnv 9 "0") (Disconnect (str "s1"))
                     demoTwice) in
  sockets s' !! str "s4"
  = Some {| sock_id := str "s4"; userId := oid "a1";
            user := withoutPassword (mkUser "a1" "alice") |}
  ∧ activeUsers s' !! oid "a1" = None
  ∧ present s' (JStr (oid "a1")) = false.
Proof.
  apply (disconnect_of_one_socket_hides_user demoVerify (quietEnv 9 "0")
           demoTwice (str "s1") (str "s4") someSocket
           {| sock_id := str "s4"; userId := oid "a1";
              user := withoutPassword (mkUser "a1" "alice") |}).
  - exact reachable_demoTwice.
  - vm_compute. reflexivity.
  - vm_compute. reflexivity.
  - vm_compute. discriminate.
  - reflexivity.
Defined.


(** ** Every run of a send *)

(** Closes the case of a send answered by an error with nothing written. *)
Ltac send_refused m :=
  left; split; [reflexivity|]; exists m; split; [assumption | reflexivity].

(** The ways a send-message ends: refused or failed with the state
    untouched; failed after the message was saved; or done. *)
Lemma send_outcomes env socket data s :
  let r := sendMessage env socket data s in
  (final r = s
   ∧ ∃ m, m ∈ [textRequired; notFoundOrDenied; sendFailed]
          ∧ emitted r = [errorTo socket m])
  ∨ (∃ d t c i, data = Some d ∧ sd_text d = JStr t ∧ trim t ≠ []
              ∧ lookup env s (sd_conversationId d) = Some (Some c)
              ∧ castId (sd_conversationId d) = Some i
              ∧ userId socket ∈ participants c
              ∧ byId msg_id (newId env) (messages s) = None
              ∧ final r = set_messages
                            (λ coll, coll ++ [stored (sentMessage env socket i t)]) s
              ∧ emitted r = [errorTo socket sendFailed])
  ∨ (∃ d t c i, data = Some d ∧ sd_text d = JStr t ∧ trim t ≠ []
              ∧ lookup env s (sd_conversationId d) = Some (Some c)
              ∧ castId (sd_conversationId d) = Some i
              ∧ userId socket ∈ participants c
              ∧ byId msg_id (newId env) (messages s) = None
              ∧ final r = afterSend env socket i t c s
              ∧ emitted r = sendEvents env socket d i t s).
Proof.
  assert (H1 : textRequired ∈ [textRequired; notFoundOrDenied; sendFailed])
    by (apply elem_of_cons; by left).
  assert (H2 : notFoundOrDenied ∈ [textRequired; notFoundOrDenied; sendFailed])
    by (apply elem_of_cons; right; apply elem_of_cons; by left).
  assert (H3 : sendFailed ∈ [textRequired; notFoundOrDenied; sendFailed])
    by (do 2 (apply elem_of_cons; right); apply elem_of_cons; by left).
  cbv zeta.
  destruct data as [d|]; [|send_refused sendFailed].
  unfold sendMessage, tryCatch, bind, Conversation_findById, Message_save,
    Message_populate, Conversation_save, insertNew, newMessage, orThrow,
    await, bind.
  simpl.
  destruct (sd_text d) as [| |b|z|t|items|fields] eqn:Ht; simpl.
  - send_refused textRequired.
  - send_refused textRequired.
  - destruct b; simpl; [send_refused sendFailed | send_refused textRequired].
  - destruct (z =? 0); simpl; [send_refused textRequired | send_refused sendFailed].
  - destruct (bool_decide (t = [])) eqn:Hempty; simpl;
      [send_refused textRequired|].
    destruct (bool_decide (trim t = [])) eqn:Htrim; simpl;
      [send_refused textRequired|].
    apply bool_decide_eq_false_1 in Htrim.
    destruct (castQuery env (sd_conversationId d)) as [P|] eqn:HP; simpl;
      [|send_refused sendFailed].
    destruct (rejects env ConversationFindById); simpl;
      [send_refused sendFailed|].
    destruct (findOne conv_id P (conversations s)) as [c|] eqn:Hc;
      simpl; [|send_refused notFoundOrDenied].
    assert (Hlook : lookup env s (sd_conversationId d) = Some (Some c))
      by (unfold lookup; by rewrite HP, <- Hc).
    destruct (includes (participants c) (userId socket)) eqn:Hp; simpl;
      [|send_refused notFoundOrDenied].
    apply includes_member in Hp.
    destruct (castId (sd_conversationId d)) as [i|] eqn:Hid; simpl;
      [|send_refused sendFailed].
    destruct (rejects env MessageSave); simpl;
      [send_refused sendFailed|].
    destruct (byId msg_id (newId env) (messages s)) eqn:Hfresh; simpl;
      [send_refused sendFailed|].
    destruct (rejects env MessagePopulate); simpl.
    { right; left. by exists d, t, c, i. }
    destruct (rejects env ConversationSave); simpl.
    { right; left. by exists d, t, c, i. }
    right; right. exists d, t, c, i. unfold sendEvents, findReceiver. simpl.
    destruct (List.find _ _); split_and!; done.
  - send_refused sendFailed.
  - send_refused sendFailed.
Qed.

Lemma tryCatch_emit_answers (m : M unit) t ev p s :
  result (tryCatch m (emit t ev p) s) = Some tt.
Proof. unfold tryCatch, emit. by destruct (m s) as [[[]|] s1 e1]. Qed.

Lemma byId_snoc {D} (idOf : D → jstring) id coll x d :
  byId idOf id coll = Some x → byId idOf id (coll ++ [d]) = Some x.
Proof.
  unfold byId. induction coll as [|y coll IH]; simpl; [done|].
  by destruct (bool_decide (idOf y = id)).
Qed.


(** The message of an event of a successful send. *)
Lemma sendEvents_message env socket d i t s e m :
  e ∈ sendEvents env socket d i t s → messageOf e = Some m →
  m = sentMessage env socket i t.
Proof.
  unfold sendEvents. intros He Hm.
  assert (Hin : e ∈ [newMessageEvent env socket d i t s;
                     notificationEvent env socket d i t s]).
  { destruct (findReceiver s (sd_receiverId d)); [done|].
    apply list_elem_of_singleton in He as ->. apply elem_of_cons. by left. }
  apply elem_of_cons in Hin as [-> | Hin]; [by injection Hm|].
  apply list_elem_of_singleton in Hin as ->. by injection Hm.
Qed.

(** X8. Whatever the payload, the store and the state, a send-message
    never lets an exception out of the handler and never stays silent: it
    emits either one error to the sender's socket and nothing else, or the
    new-message event.  It adds at most one message and takes none away.
    A message it broadcasts or notifies has been persisted before: the
    collection has it as the store keeps it (with U+FFFD for an unpaired
    surrogate of its text, so the very message when its text has none),
    unread and with the socket's user as sender, and it is what the
    conversation points to as its last message. *)
Theorem send_broadcasts_only_what_is_persisted env socket data s :
  let r := sendMessage env socket data s in
  result r = Some tt
  ∧ ((∃ m, emitted r = [errorTo socket m])
     ∨ (∃ e, e ∈ emitted r ∧ event e = "new-message"))
  ∧ (messages (final r) = messages s
     ∨ ∃ m, messages (final r) = messages s ++ [m])
  ∧ (∀ e m, e ∈ emitted r → messageOf e = Some m →
       last (messages (final r))
       = Some {| msg_id := msg_id m; conversation := conversation m;
                 sender := sender m; text := toWellFormed (text m);
                 read := read m; readAt := readAt m;
                 createdAt := createdAt m |}
       ∧ (noLoneSurrogate (text m) = true → m ∈ messages (final r))
       ∧ sender m = userId socket ∧ read m = false
       ∧ ∃ c, byId conv_id (conversation m) (conversations (final r)) = Some c
              ∧ lastMessage c = Some (msg_id m)).
Proof.
  intros r. split; [apply tryCatch_emit_answers|].
  destruct (send_outcomes env socket data s)
    as [[Hfin (m & _ & Hem)]
       | [(d & t & c & i & _ & _ & _ & _ & _ & _ & _ & Hfin & Hem)
         | (d & t & c & i & _ & _ & _ & Hc & Hid & _ & _ & Hfin & Hem)]];
    fold r in Hfin, Hem; rewrite Hfin, Hem.
  - split; [left; eauto|]. split; [by left|].
    intros e m' ->%list_elem_of_singleton. discriminate.
  - split; [left; eauto|]. split; [right; eauto|].
    intros e m' ->%list_elem_of_singleton. discriminate.
  - split.
    { right. eexists. split; [apply elem_of_cons; by left | done]. }
    split; [right; eauto|].
    intros e m' He Hm'.
    rewrite (sendEvents_message _ _ _ _ _ _ _ _ He Hm'). simpl.
    split; [by rewrite last_snoc|]. split.
    { intros Hwf. apply elem_of_app. right. apply list_elem_of_singleton.
      symmetry. by apply stored_id. }
    split; [done|]. split; [done|].
    exists (writeBack env (touch env c (newId env)) c). split; [|done].
    apply (afterSend_conversation env socket i t c s).
    by apply (lookup_cast env s (sd_conversationId d)).
Qed.



(** ** What the events carry *)

Section Emissions.

Context (P : Emit → Prop).

Lemma emitsOnly_ret {A} (a : A) : emitsOnly P (ret a).
Proof. intros s e H. by apply elem_of_nil in H. Qed.

Lemma emitsOnly_throw {A} : emitsOnly P (@throw A).
Proof. intros s e H. by apply elem_of_nil in H. Qed.

Lemma emitsOnly_gets {A} (f : Server → A) : emitsOnly P (gets f).
Proof. intros s e H. by apply elem_of_nil in H. Qed.

Lemma emitsOnly_modify f : emitsOnly P (modify f).
Proof. intros s e H. by apply elem_of_nil in H. Qed.

Lemma emitsOnly_await env c : emitsOnly P (await env c).
Proof.
  intros s e. unfold await.
  destruct (rejects env c); intros H; by apply elem_of_nil in H.
Qed.

Lemma emitsOnly_orThrow {A} (x : option A) : emitsOnly P (orThrow x).
Proof. intros s e. destruct x; intros H; by apply elem_of_nil in H. Qed.

Lemma emitsOnly_destructure {A} (data : option A) : emitsOnly P (destructure data).
Proof. intros s e. destruct data; intros H; by apply elem_of_nil in H. Qed.

Lemma emitsOnly_insertNew {D} (coll : Server → list D) idOf id :
  emitsOnly P (insertNew coll idOf id).
Proof.
  intros s e. unfold insertNew.
  destruct (byId idOf id (coll s)); intros H; by apply elem_of_nil in H.
Qed.

Lemma emitsOnly_uniqueParticipants ids : emitsOnly P (uniqueParticipants ids).
Proof.
  intros s e. unfold uniqueParticipants.
  destruct (existsb _ _); intros H; by apply elem_of_nil in H.
Qed.

Lemma emitsOnly_emit t ev p :
  P {| target := t; event := ev; payload := p |} → emitsOnly P (emit t ev p).
Proof. intros H s e ->%list_elem_of_singleton. exact H. Qed.

Lemma emitsOnly_bind {A B} (m : M A) (f : A → M B) :
  emitsOnly P m → (∀ a, emitsOnly P (f a)) → emitsOnly P (bind m f).
Proof.
  intros Hm Hf s e. unfold bind. specialize (Hm s).
  destruct (m s) as [[a|] s1 e1]; simpl in *; [|apply Hm].
  specialize (Hf a s1). destruct (f a s1) as [r s2 e2]. simpl in *.
  intros [?|?]%elem_of_app; eauto.
Qed.

Lemma emitsOnly_tryCatch {A} (m h : M A) :
  emitsOnly P m → emitsOnly P h → emitsOnly P (tryCatch m h).
Proof.
  intros Hm Hh s e. unfold tryCatch. specialize (Hm s).
  destruct (m s) as [[a|] s1 e1]; simpl in *; [apply Hm|].
  specialize (Hh s1). destruct (h s1) as [r s2 e2]. simpl in *.
  intros [?|?]%elem_of_app; eauto.
Qed.

End Emissions.

Create HintDb emits.

#[local] Hint Resolve emitsOnly_ret emitsOnly_throw emitsOnly_gets
  emitsOnly_modify emitsOnly_await emitsOnly_orThrow emitsOnly_destructure
  emitsOnly_insertNew emitsOnly_uniqueParticipants
  emitsOnly_bind emitsOnly_tryCatch : emits.

(** Breaks a handler into its calls; what is left are its emissions. *)
Ltac emits_step :=
  match goal with
  | |- emitsOnly _ (bind _ _) => apply emitsOnly_bind
  | |- emitsOnly _ (tryCatch _ _) => apply emitsOnly_tryCatch
  | |- emitsOnly _ (emit _ _ _) => apply emitsOnly_emit
  | |- emitsOnly _ (if ?b then _ else _) => destruct b
  | |- emitsOnly _ (match ?x with _ => _ end) => destruct x
  | |- ∀ _, _ => intros
  | |- _ => solve [auto with emits]
  end.

Ltac emits_tac := repeat emits_step.

Lemma emitsOnly_onSocket (P : Emit → Prop) sid (h : Socket → M unit) s :
  (∀ socket e, sockets s !! sid = Some socket → e ∈ emitted (h socket s) → P e) →
  ∀ e, e ∈ emitted (onSocket sid h s) → P e.
Proof.
  intros H e. unfold onSocket, bind, gets.
  destruct (sockets s !! sid) as [socket|] eqn:Hsid;
    [|intros Hin; by apply elem_of_nil in Hin].
  specialize (H socket e eq_refl). by destruct (h socket s).
Qed.

(** X10. In every state the server reaches, whatever input comes next, no
    event it emits carries a password: the only events with a user
    document are the notifications of a send, and the document is the one
    the middleware loaded without the password. *)
Theorem no_event_carries_a_password jwt_verify s env i e cid pm u :
  reachable jwt_verify s →
  e ∈ emitted (step jwt_verify env i s) →
  payload e = PNotification cid pm u →
  password u = None.
Proof.
  intros [_ (_ & _ & _ & _ & Hpw)]%reachable_wired He Hpay.
  assert (Hnone : ∀ m : M unit, emitsOnly carriesNoUser m →
            e ∈ emitted (m s) → password u = None).
  { intros m Hm Hin. by destruct (Hm s e Hin cid pm u). }
  destruct i; simpl in He.
  - revert He. apply Hnone.
    unfold authenticate, verify, User_findById, connection.
    emits_tac; by intros ???.
  - revert He. apply Hnone. unfold onSocket, joinConversation. emits_tac.
  - revert He. apply Hnone. unfold onSocket, leaveConversation. emits_tac.
  - clear Hnone. revert e He Hpay.
    apply (emitsOnly_onSocket
             (λ e, payload e = PNotification cid pm u → password u = None)).
    intros socket e Hsid He Hpay.
    destruct (send_outcomes env socket data s)
      as [[_ (m & _ & Hem)]
         | [(d & t & c & k & _ & _ & _ & _ & _ & _ & _ & _ & Hem)
           | (d & t & c & k & _ & _ & _ & _ & _ & _ & _ & _ & Hem)]];
      simpl in Hem; rewrite Hem in He.
    + apply list_elem_of_singleton in He as ->. discriminate.
    + apply list_elem_of_singleton in He as ->. discriminate.
    + unfold sendEvents in He.
      apply elem_of_cons in He as [-> | He]; [discriminate|].
      destruct (findReceiver s (sd_receiverId d));
        [|by apply elem_of_nil in He].
      apply list_elem_of_singleton in He as ->.
      injection Hpay as _ _ <-. eauto.
  - revert He. apply Hnone. unfold onSocket, typing.
    emits_tac; by intros ???.
  - revert He. apply Hnone.
    unfold onSocket, markReadHandler, Conversation_findById, Message_updateMany.
    emits_tac; by intros ???.
  - revert He. apply Hnone. unfold onSocket, disconnect.
    emits_tac; by intros ???.
  - revert He. apply Hnone.
    unfold findOrCreate, Conversation_findOne, Conversation_create. emits_tac.
  - revert He. apply Hnone.
    unfold getMessages, Conversation_findById, Message_find. emits_tac.
  - revert He. apply Hnone.
    unfold putRead, Conversation_findById, Message_updateMany. emits_tac.
  - by apply elem_of_nil in He.
Qed.

Lemma no_event_carries_a_password_witness :
  password (user someSocket) = None.
Proof.
  apply (no_event_carries_a_password demoVerify demo (quietEnv 8 "f1")
           (SendMessage (str "s1") (Some (hello "e1" "b2")))
           (notificationEvent (quietEnv 8 "f1") someSocket (hello "e1" "b2")
              (oid "e1") (str "  hi ") demo)
           (JStr (oid "e1"))
           (sentPopulated (quietEnv 8 "f1") someSocket (oid "e1")
              (str "  hi ") demo)
           (user someSocket)).
  - exact reachable_demo.
  - apply (bool_decide_unpack _). vm_compute. exact I.
  - reflexivity.
Defined.

(** ** The stored messages *)

Lemma byId_None_not_in {D} (idOf : D → jstring) id coll :
  byId idOf id coll = None → id ∉ idOf <$> coll.
Proof.
  intros H (d & -> & Hin)%list_elem_of_fmap.
  apply list_elem_of_In in Hin.
  pose proof (find_none _ _ H d Hin) as Hno. simpl in Hno.
  by rewrite bool_decide_eq_true_2 in Hno.
Qed.

Lemma byId_fmap_keeping {D} (idOf : D → jstring) (f : D → D) id coll :
  (∀ d, idOf (f d) = idOf d) →
  byId idOf id (f <$> coll) = f <$> byId idOf id coll.
Proof.
  intros Hf. unfold byId. induction coll as [|d coll IH]; simpl; [done|].
  rewrite Hf. by destruct (bool_decide (idOf d = id)).
Qed.

Lemma messagesSound_conversations (f : list Conversation → list Conversation) s :
  (∀ id c, byId conv_id id (conversations s) = Some c →
     ∃ c', byId conv_id id (f (conversations s)) = Some c'
           ∧ participants c' = participants c) →
  messagesSound s → messagesSound (set_conversations f s).
Proof.
  intros Hf [Hall Hnodup]. split; [|done]. simpl.
  eapply Forall_impl; [exact Hall|].
  intros m (H1 & H2 & c & Hc & Hp). split_and!; try done.
  destruct (Hf _ _ Hc) as (c' & Hc' & Hpc). exists c'. by rewrite Hpc.
Qed.

Lemma messagesSound_save env c c' s :
  messagesSound s →
  messagesSound (set_conversations (fmap (λ x,
    if bool_decide (conv_id x = conv_id c) then writeBack env c' x else x)) s).
Proof.
  apply messagesSound_conversations. intros id x Hx.
  rewrite byId_fmap_keeping, Hx; [|intros d; by destruct (bool_decide _)].
  simpl. eexists. split; [done|]. by destruct (bool_decide _).
Qed.

Lemma messagesSound_create c s :
  messagesSound s →
  messagesSound (set_conversations (λ coll, coll ++ [c]) s).
Proof.
  apply messagesSound_conversations. intros id x Hx.
  exists x. split; [by apply byId_snoc | done].
Qed.

Lemma messagesSound_update env P uid s :
  messagesSound s →
  messagesSound (set_messages (fmap (λ m,
    if unreadFromOthers P uid m then markRead env m else m)) s).
Proof.
  intros [Hall Hnodup]. split; simpl.
  - apply Forall_fmap. eapply Forall_impl; [exact Hall|].
    intros m H. simpl. by destruct (unreadFromOthers P uid m).
  - rewrite <- list_fmap_compose.
    erewrite list_fmap_ext; [exact Hnodup|].
    intros i m _. simpl. by destruct (unreadFromOthers P uid m).
Qed.

Lemma messagesSound_sent env socket i t c s :
  trim t ≠ [] →
  byId conv_id i (conversations s) = Some c →
  userId socket ∈ participants c →
  byId msg_id (newId env) (messages s) = None →
  messagesSound s →
  messagesSound (set_messages
                   (λ coll, coll ++ [stored (sentMessage env socket i t)]) s).
Proof.
  intros Hne Hc Hp Hfresh [Hall Hnodup]. split; simpl.
  - apply Forall_app. split; [done|]. constructor; [|constructor]. simpl.
    split_and!.
    + by rewrite toWellFormed_nil.
    + apply toWellFormed_trimmed, trim_idemp.
    + eauto.
  - rewrite fmap_app. simpl. apply NoDup_app. split; [done|].
    split; [|apply NoDup_singleton].
    intros id Hid ->%list_elem_of_singleton.
    by apply (byId_None_not_in _ _ _ Hfresh).
Qed.

Lemma sendMessage_messagesSound env socket data :
  preserves messagesSound (sendMessage env socket data).
Proof.
  intros s Hs.
  destruct (send_outcomes env socket data s)
    as [[-> _]
       | [(d & t & c & i & _ & _ & Hne & Hc & Hid & Hp & Hfresh & -> & _)
         | (d & t & c & i & _ & _ & Hne & Hc & Hid & Hp & Hfresh & -> & _)]];
    [done | |];
    pose proof (lookup_cast env s _ c i Hc Hid) as Hby.
  - by eapply messagesSound_sent.
  - unfold afterSend. apply messagesSound_save. by eapply messagesSound_sent.
Qed.

Section MessageInvariant.

Variable jwt_verify : jstring → option jstring.

Lemma step_messagesSound env i :
  preserves messagesSound (step jwt_verify env i).
Proof.
  destruct i; simpl; unfold onSocket.
  - apply preserves_bind; [auto with preserves|].
    intros [known|]; [auto with preserves|].
    apply preserves_bind.
    + unfold authenticate, verify, User_findById. preserves_tac.
    + intros [socket|m]; [|auto with preserves].
      unfold connection. preserves_tac; done.
  - unfold joinConversation. preserves_tac; done.
  - unfold leaveConversation. preserves_tac; done.
  - preserves_tac; apply sendMessage_messagesSound.
  - unfold typing. preserves_tac.
  - unfold markReadHandler, Conversation_findById, Message_updateMany.
    preserves_tac; try done. by apply messagesSound_update.
  - unfold disconnect. preserves_tac; done.
  - unfold findOrCreate, Conversation_findOne, Conversation_create.
    preserves_tac; try done. by apply messagesSound_create.
  - unfold getMessages, Conversation_findById, Message_find. preserves_tac.
  - unfold putRead, Conversation_findById, Message_updateMany.
    preserves_tac; try done. by apply messagesSound_update.
  - preserves_tac; done.
Qed.

(** X11. In every state the server reaches, every stored message has a
    text that is not empty and has no white space at its ends, belongs to a
    conversation that exists, and was sent by a participant of that
    conversation; and no two messages have the same id. *)
Theorem stored_messages_are_sound s :
  reachable jwt_verify s →
  (∀ m, m ∈ messages s →
     text m ≠ [] ∧ trim (text m) = text m
     ∧ ∃ c, byId conv_id (conversation m) (conversations s) = Some c
            ∧ sender m ∈ participants c)
  ∧ NoDup (msg_id <$> messages s).
Proof.
  intros Hreach.
  assert (Hs : messagesSound s).
  { induction Hreach as [|s env i _ IH].
    - split; constructor.
    - by apply step_messagesSound. }
  destruct Hs as [Hall Hnodup]. split; [|done].
  by apply Forall_forall.
Qed.

End MessageInvariant.

Lemma stored_messages_are_sound_witness :
  (∀ m, m ∈ messages demoChat →
     text m ≠ [] ∧ trim (text m) = text m
     ∧ ∃ c, byId conv_id (conversation m) (conversations demoChat) = Some c
            ∧ sender m ∈ participants c)
  ∧ NoDup (msg_id <$> messages demoChat).
Proof.
  apply (stored_messages_are_sound demoVerify demoChat).
  exact reachable_demoChat.
Defined.

(** ** Sending, then reading *)








(** ** The routes of the read receipts and of the history *)

(** The runs of a mark-read and of the route, by cases. *)
Lemma markRead_cases env socket v s :
  markReadHandler env socket (Some {| rd_conversationId := v |}) s
  = match (if rejects env ConversationFindById then None else lookup env s v),
          castQuery env v with
    | Some (Some c), Some P =>
        if includes (participants c) (userId socket) then
          if rejects env MessageUpdateMany
          then {| result := Some tt; final := s; emitted := [] |}
          else {| result := Some tt;
                  final := set_messages (fmap (λ m,
                    if unreadFromOthers P (userId socket) m
                    then markRead env m else m)) s;
                  emitted := [ {| target := ToRoomExcept
                                              (conversationRoom (toStr v))
                                              (sock_id socket);
                                  event := "messages-read";
                                  payload := PMessagesRead v (userId socket) |} ] |}
        else {| result := Some tt; final := s; emitted := [] |}
    | _, _ => {| result := Some tt; final := s; emitted := [] |}
    end.
Proof.
  unfold markReadHandler, tryCatch. unfold bind at 1. simpl.
  unfold bind at 1. rewrite findById_run.
  destruct (rejects env ConversationFindById); simpl; [done|].
  unfold lookup.
  destruct (castQuery env v) as [P|]; simpl; [|done].
  destruct (findOne conv_id P (conversations s)) as [c|]; simpl; [|done].
  destruct (includes (participants c) (userId socket)); simpl; [|done].
  unfold bind, Message_updateMany, await, bind. simpl.
  by destruct (rejects env MessageUpdateMany).
Qed.

Lemma putRead_cases env reqUser cid s :
  putRead env reqUser cid s
  = match (if rejects env ConversationFindById then None
           else lookup env s (JStr cid)) with
    | Some (Some c) =>
        if includes (participants c) (user_id reqUser) then
          if rejects env MessageUpdateMany
          then {| result := Some (Status 500 "Failed to mark messages as read");
                  final := s; emitted := [] |}
          else {| result := Some (Status 200 "Messages marked as read");
                  final := set_messages (fmap (λ m,
                    if unreadFromOthers (eqId (conv_id c)) (user_id reqUser) m
                    then markRead env m else m)) s;
                  emitted := [] |}
        else {| result := Some (Status 403 "Access denied");
                final := s; emitted := [] |}
    | Some None => {| result := Some (Status 404 "Conversation not found");
                      final := s; emitted := [] |}
    | None => {| result := Some (Status 500 "Failed to mark messages as read");
                 final := s; emitted := [] |}
    end.
Proof.
  unfold putRead, tryCatch. unfold bind at 1. rewrite findById_run.
  destruct (rejects env ConversationFindById); simpl; [done|].
  destruct (lookup env s (JStr cid)) as [[c|]|]; simpl; try done.
  destruct (includes (participants c) (user_id reqUser)); simpl; [|done].
  unfold bind, Message_updateMany, await, bind. simpl.
  by destruct (rejects env MessageUpdateMany).
Qed.

(** X14. The route that marks a conversation read writes exactly what the
    mark-read event of a socket of the same user writes for the same id,
    in every case; it emits nothing, where the socket handler tells the
    room; and it answers 200 exactly in the cases in which the socket
    handler emits its messages-read event. *)
Theorem put_read_writes_as_mark_read env reqUser socket cid s :
  user_id reqUser = userId socket →
  let r := putRead env reqUser cid s in
  let r' := markReadHandler env socket
              (Some {| rd_conversationId := JStr cid |}) s in
  final r = final r'
  ∧ emitted r = []
  ∧ (result r = Some (Status 200 "Messages marked as read") ↔ emitted r' ≠ []).
Proof.
  intros Hu r r'. subst r r'.
  rewrite putRead_cases, markRead_cases, lookup_string, castQuery_string, Hu.
  destruct (rejects env ConversationFindById); simpl.
  { split_and!; [done | done | split; done]. }
  destruct (castObjectId cid) as [i|] eqn:Hcast; simpl.
  2:{ split_and!; [done | done | split; done]. }
  destruct (byId conv_id i (conversations s)) as [c|] eqn:Hc; simpl.
  2:{ split_and!; [done | done | split; done]. }
  rewrite (byId_id _ _ _ _ Hc).
  destruct (includes (participants c) (userId socket)); simpl.
  2:{ split_and!; [done | done | split; done]. }
  destruct (rejects env MessageUpdateMany); simpl.
  { split_and!; [done | done | split; done]. }
  split_and!; [done | done | split; done].
Qed.

Lemma put_read_writes_as_mark_read_witness :
  let r := putRead (quietEnv 11 "0") (mkUser "b2" "bob") (oid "e1") demoChat in
  let r' := markReadHandler (quietEnv 11 "0") bobSocket
              (Some {| rd_conversationId := JStr (oid "e1") |}) demoChat in
  final r = final r'
  ∧ emitted r = []
  ∧ (result r = Some (Status 200 "Messages marked as read") ↔ emitted r' ≠ []).
Proof.
  apply (put_read_writes_as_mark_read (quietEnv 11 "0") (mkUser "b2" "bob")
           bobSocket (oid "e1") demoChat).
  reflexivity.
Defined.

(** The run of the history read, by cases. *)
Lemma getMessages_cases env reqUser cid s :
  getMessages env reqUser cid s
  = {| result := Some
         match (if rejects env ConversationFindById then None
                else lookup env s (JStr cid)) with
         | Some (Some c) =>
             if includes (participants c) (user_id reqUser) then
               if rejects env MessageFind
               then Status 500 "Failed to fetch messages"
               else Json ((λ m, {| doc := m;
                                   populatedSender :=
                                     senderInfo <$> byId user_id (sender m)
                                                         (users s) |})
                          <$> take historyLimit
                                (merge_sort olderOrSame (thread s (conv_id c))))
             else Status 403 "Access denied"
         | Some None => Status 404 "Conversation not found"
         | None => Status 500 "Failed to fetch messages"
         end;
       final := s; emitted := [] |}.
Proof.
  unfold getMessages, tryCatch. unfold bind at 1. rewrite findById_run.
  destruct (rejects env ConversationFindById); simpl; [done|].
  destruct (lookup env s (JStr cid)) as [[c|]|]; simpl; try done.
  destruct (includes (participants c) (user_id reqUser)); simpl; [|done].
  unfold bind, Message_find, await. simpl.
  by destruct (rejects env MessageFind).
Qed.

(** X16. The history read writes nothing and emits nothing, whatever it
    answers.  When the lookup answers it tells a missing conversation (404)
    from one the user is not a participant of (403); an id that does not
    cast or a store call that rejects gives 500. *)
Theorem history_read_answers env reqUser cid s :
  let r := getMessages env reqUser cid s in
  final r = s ∧ emitted r = []
  ∧ (rejects env ConversationFindById = false →
     lookup env s (JStr cid) = Some None →
     result r = Some (Status 404 "Conversation not found"))
  ∧ (∀ c, rejects env ConversationFindById = false →
     lookup env s (JStr cid) = Some (Some c) →
     user_id reqUser ∉ participants c →
     result r = Some (Status 403 "Access denied"))
  ∧ (∀ c, rejects env ConversationFindById = true
          ∨ lookup env s (JStr cid) = None
          ∨ (lookup env s (JStr cid) = Some (Some c)
             ∧ user_id reqUser ∈ participants c
             ∧ rejects env MessageFind = true) →
     result r = Some (Status 500 "Failed to fetch messages")).
Proof.
  intros r. subst r. rewrite getMessages_cases. simpl.
  split; [done|]. split; [done|]. split_and!.
  - by intros -> ->.
  - intros c -> -> Hp. simpl. by rewrite (includes_false _ _ Hp).
  - intros c [-> | [Hc | (Hc & Hp & Hm)]]; [done| |].
    + rewrite Hc. by destruct (rejects env ConversationFindById).
    + rewrite Hc. destruct (rejects env ConversationFindById); [done|].
      simpl. by rewrite (includes_true _ _ Hp), Hm.
Qed.

Lemma getMessages_oldest_witness :
  ∃ l, result (getMessages (quietEnv 11 "0") (mkUser "b2" "bob") (oid "e1")
                 demoChat) = Some (Json l)
       ∧ List.length l
         = (historyLimit `min` List.length (thread demoChat (oid "e1")))%nat
       ∧ StronglySorted olderOrSame (doc <$> l)
       ∧ ∀ m m', m ∈ doc <$> l → m' ∈ thread demoChat (oid "e1") →
                 m' ∉ doc <$> l → createdAt m ≤ createdAt m'.
Proof.
  eexists. split; [vm_compute; reflexivity|].
  apply (getMessages_oldest (quietEnv 11 "0") (mkUser "b2" "bob") (oid "e1")
           demoChat demoChatConversation).
  - reflexivity.
  - reflexivity.
  - vm_compute. reflexivity.
  - apply includes_member. vm_compute. reflexivity.
  - vm_compute. reflexivity.
Defined.

(** ** The route of a conversation with another user *)

Lemma isConnected_elem u other : isConnected u other = true → other ∈ connections u.
Proof.
  unfold isConnected. intros (x & Hin & Hx)%existsb_exists.
  apply bool_decide_eq_true_1 in Hx as ->. by apply list_elem_of_In.
Qed.

Lemma elem_isConnected u other : other ∈ connections u → isConnected u other = true.
Proof.
  intros Hin. unfold isConnected. apply existsb_exists. exists other.
  split; [by apply list_elem_of_In | by apply bool_decide_eq_true_2].
Qed.

(** X17. The route returns or creates a conversation only for a requester
    that is stored and lists the other user, who is stored too and is not
    the requester, among its connections.  In every other case the
    conversations are as they were and the answer is an error status. *)
Theorem conversation_only_between_connected renv reqUser other s :
  let r := getConversation renv reqUser other s in
  conversations (final r) ≠ conversations s
  ∨ (∃ id op ps, result r = Some (ConversationJson id op ps)) →
  other ≠ user_id reqUser
  ∧ (∃ i, castObjectId other = Some i ∧ is_Some (byId user_id i (users s)))
  ∧ ∃ cu, byId user_id (user_id reqUser) (users s) = Some cu
          ∧ other ∈ connections cu.
Proof.
  intros r. subst r.
  assert (Hno : ∀ code m (P : Prop),
            conversations s ≠ conversations s
            ∨ (∃ id op ps, Some (ConversationStatus code m)
                           = Some (ConversationJson id op ps)) → P).
  { intros code m P [? | (? & ? & ? & ?)]; done. }
  unfold getConversation, tryCatch, bind, awaitRest, gets, destructure,
    orThrow, ret, throw.
  simpl.
  destruct (bool_decide (other = user_id reqUser)) eqn:Hself; simpl;
    [apply Hno|].
  apply bool_decide_eq_false_1 in Hself.
  destruct (castObjectId other) as [i|] eqn:Hcast; simpl; [|apply Hno].
  destruct (restRejects renv OtherUserLookup); simpl; [apply Hno|].
  destruct (byId user_id i (users s)) as [uo|] eqn:Huo; simpl;
    [|apply Hno].
  destruct (restRejects renv CurrentUserLookup); simpl; [apply Hno|].
  destruct (byId user_id (user_id reqUser) (users s)) as [cu|] eqn:Hcu; simpl;
    [|apply Hno].
  destruct (isConnected cu other) eqn:Hconn; simpl; [|apply Hno].
  intros _. split_and!; [done | eauto |].
  exists cu. split; [done|]. by apply isConnected_elem.
Qed.

Lemma conversation_only_between_connected_witness :
  oid "b2" ≠ user_id (mkUser "a1" "alice")
  ∧ (∃ i, castObjectId (oid "b2") = Some i
          ∧ is_Some (byId user_id i (users friends)))
  ∧ ∃ cu, byId user_id (user_id (mkUser "a1" "alice")) (users friends) = Some cu
          ∧ oid "b2" ∈ connections cu.
Proof.
  apply (conversation_only_between_connected (quietRest 2 "e1")
           (mkUser "a1" "alice") (oid "b2") friends).
  left. vm_compute. discriminate.
Defined.

Lemma populate_pair s x y ux uy :
  byId user_id x (users s) = Some ux →
  byId user_id y (users s) = Some uy →
  populateParticipants s [x; y] = [participantInfo ux; participantInfo uy].
Proof. intros Hx Hy. unfold populateParticipants. simpl. by rewrite Hx, Hy. Qed.

(** The answer of the route, once find-or-create has given a conversation
    of the sorted pair. *)
Lemma getConversation_run renv reqUser other s um uo c s' :
  other ≠ user_id reqUser →
  (∀ call, restRejects renv call = false) →
  castObjectId other = Some other →
  byId user_id other (users s) = Some uo →
  byId user_id (user_id reqUser) (users s) = Some um →
  other ∈ connections um →
  findOrCreate (storeEnv renv) (user_id reqUser) other s
  = {| result := Some c; final := s'; emitted := [] |} →
  users s' = users s →
  participants c = sort2 (user_id reqUser) other →
  getConversation renv reqUser other s
  = {| result := Some (ConversationJson (conv_id c)
                         (Some (participantInfo uo))
                         (populateParticipants s (sort2 (user_id reqUser) other)));
       final := s'; emitted := [] |}.
Proof.
  intros Hne Hq Hcast Huo Hum Hconn Hfoc Husers Hps.
  unfold getConversation, tryCatch, bind, awaitRest, gets, destructure,
    orThrow, ret, throw.
  rewrite bool_decide_eq_false_2 by done.
  rewrite Hcast, !Hq. simpl. rewrite Huo. simpl. rewrite Hum. simpl.
  rewrite (elem_isConnected _ _ Hconn). simpl. rewrite Hfoc. simpl.
  unfold populateParticipants at 1 2. rewrite Husers.
  fold (populateParticipants s (participants c)). rewrite Hps.
  do 2 f_equal.
  pose proof (byId_id _ _ _ _ Huo) as Hio.
  pose proof (byId_id _ _ _ _ Hum) as Him.
  unfold sort2. destruct (ltb other (user_id reqUser)).
  - rewrite (populate_pair s _ _ uo um Huo Hum). unfold otherOf. simpl.
    by rewrite Hio, bool_decide_eq_false_2.
  - rewrite (populate_pair s _ _ um uo Hum Huo). unfold otherOf. simpl.
    rewrite Him, bool_decide_eq_true_2 by done. simpl.
    by rewrite Hio, bool_decide_eq_false_2.
Qed.

Lemma sort2_elems a b x : x ∈ sort2 a b ↔ x = a ∨ x = b.
Proof.
  unfold sort2. destruct (ltb b a);
    rewrite !elem_of_cons, elem_of_nil; naive_solver.
Qed.

Lemma sort2_perm a b : sort2 a b ≡ₚ [a; b].
Proof. unfold sort2. destruct (ltb b a); [apply perm_swap | done]. Qed.

(** X18. Two users that list each other among their connections, neither
    of whom is in a conversation with somebody else, get the same
    conversation from the route, whoever asks first: when nothing rejects,
    the first request answers with the conversation of the two, made if
    needed, whose participants are the two ids in order, and the other
    user as the other participant; the request of the other user then
    answers with the same conversation id and the same participants, names
    the first user as the other participant, and creates nothing. *)
Theorem same_conversation_from_both_sides renv1 renv2 ua ub sa sb s :
  user_id ua ≠ user_id ub →
  castObjectId (user_id ua) = Some (user_id ua) →
  castObjectId (user_id ub) = Some (user_id ub) →
  byId user_id (user_id ua) (users s) = Some sa →
  byId user_id (user_id ub) (users s) = Some sb →
  user_id ub ∈ connections sa →
  user_id ua ∈ connections sb →
  (∀ c, c ∈ conversations s →
        user_id ua ∈ participants c ∨ user_id ub ∈ participants c →
        participants c = sort2 (user_id ua) (user_id ub)) →
  (∀ call, restRejects renv1 call = false) →
  (∀ call, restRejects renv2 call = false) →
  rejects (storeEnv renv1) ConversationFindOne = false →
  rejects (storeEnv renv1) ConversationCreate = false →
  byId conv_id (newId (storeEnv renv1)) (conversations s) = None →
  rejects (storeEnv renv2) ConversationFindOne = false →
  let r1 := getConversation renv1 ua (user_id ub) s in
  let r2 := getConversation renv2 ub (user_id ua) (final r1) in
  ∃ id ps,
    result r1 = Some (ConversationJson id (Some (participantInfo sb)) ps)
    ∧ result r2 = Some (ConversationJson id (Some (participantInfo sa)) ps)
    ∧ pi_id <$> ps
      = (if ltb (user_id ub) (user_id ua)
         then [user_id ub; user_id ua] else [user_id ua; user_id ub])
    ∧ final r2 = final r1.
Proof.
  intros Hne Hca Hcb Hsa Hsb Hab Hba Hfree Hq1 Hq2 Hf1 Hc1 Hfresh Hf2 r1 r2.
  pose proof (castIds_canonical _ _ Hca Hcb) as Hids.
  pose proof (findOrCreate_run (storeEnv renv1) (user_id ua) (user_id ub) s _
                Hf1 Hc1 Hfresh Hids) as Hrun.
  cbv zeta in Hrun.
  assert (Hfoc : ∃ c s',
            findOrCreate (storeEnv renv1) (user_id ua) (user_id ub) s
            = {| result := Some c; final := s'; emitted := [] |}
            ∧ participants c = sort2 (user_id ua) (user_id ub)
            ∧ users s' = users s
            ∧ List.find (λ x, bool_decide
                           (participants x = sort2 (user_id ua) (user_id ub)))
                        (conversations s') = Some c).
  { destruct (List.find _ (conversations s)) as [c|] eqn:Hfind.
    - exists c, s. split_and!; try done.
      apply find_some in Hfind as [_ H]. by apply bool_decide_eq_true_1 in H.
    - destruct (existsb _ (conversations s)) eqn:Hshare.
      { exfalso.
        apply sharesParticipant_true in Hshare as (c & p & Hc & Hp & Hin).
        apply sort2_elems in Hp.
        assert (Hpc : participants c = sort2 (user_id ua) (user_id ub)).
        { apply Hfree; [done|]. destruct Hp as [-> | ->]; [by left | by right]. }
        apply list_elem_of_In in Hc.
        pose proof (find_none _ _ Hfind c Hc) as Hnone. simpl in Hnone.
        by rewrite bool_decide_eq_true_2 in Hnone. }
      eexists _, _. split; [exact Hrun|]. split_and!; try done. simpl.
      apply find_snoc; [done|]. by apply bool_decide_eq_true_2. }
  destruct Hfoc as (c & s' & Hfoc & Hps & Husers & Hfound).
  assert (Hr1 : r1 = {| result := Some (ConversationJson (conv_id c)
                                         (Some (participantInfo sb))
                                         (populateParticipants s
                                            (sort2 (user_id ua) (user_id ub))));
                        final := s'; emitted := [] |}).
  { by apply (getConversation_run renv1 ua (user_id ub) s sa sb c s'). }
  assert (Hr2 : r2 = {| result := Some (ConversationJson (conv_id c)
                                         (Some (participantInfo sa))
                                         (populateParticipants s'
                                            (sort2 (user_id ub) (user_id ua))));
                        final := s'; emitted := [] |}).
  { subst r2. rewrite Hr1. simpl.
    apply (getConversation_run renv2 ub (user_id ua) s' sb sa c s');
      try done; try (by rewrite Husers).
    - apply (findOrCreate_found _ _ _ _ (sort2 (user_id ua) (user_id ub)));
        [done | | done].
      rewrite (sort2_comm (user_id ub)). exact Hids.
    - by rewrite (sort2_comm _ (user_id ua)). }
  rewrite Hr2, Hr1. simpl.
  exists (conv_id c), (populateParticipants s (sort2 (user_id ua) (user_id ub))).
  split_and!; try done.
  - unfold populateParticipants. by rewrite Husers, (sort2_comm (user_id ub)).
  - pose proof (byId_id _ _ _ _ Hsa) as Hia.
    pose proof (byId_id _ _ _ _ Hsb) as Hib.
    unfold sort2. destruct (ltb (user_id ub) (user_id ua)).
    + rewrite (populate_pair s _ _ sb sa Hsb Hsa). simpl. by rewrite Hia, Hib.
    + rewrite (populate_pair s _ _ sa sb Hsa Hsb). simpl. by rewrite Hia, Hib.
Qed.

Lemma same_conversation_from_both_sides_witness :
  let r1 := getConversation (quietRest 2 "e1") (friend "b2" "bob" "a1")
              (oid "a1") friends in
  let r2 := getConversation (quietRest 3 "e2") (friend "a1" "alice" "b2")
              (oid "b2") (final r1) in
  ∃ id ps,
    result r1 = Some (ConversationJson id
                        (Some (participantInfo (friend "a1" "alice" "b2"))) ps)
    ∧ result r2 = Some (ConversationJson id
                          (Some (participantInfo (friend "b2" "bob" "a1"))) ps)
    ∧ pi_id <$> ps = [str "a10000000000000000000000";
                      str "b20000000000000000000000"]
    ∧ final r2 = final r1.
Proof.
  apply (same_conversation_from_both_sides (quietRest 2 "e1") (quietRest 3 "e2")
           (friend "b2" "bob" "a1") (friend "a1" "alice" "b2")
           (friend "b2" "bob" "a1") (friend "a1" "alice" "b2") friends).
  - vm_compute. discriminate.
  - reflexivity.
  - reflexivity.
  - vm_compute. reflexivity.
  - vm_compute. reflexivity.
  - apply includes_member. vm_compute. reflexivity.
  - apply includes_member. vm_compute. reflexivity.
  - intros c Hc. by apply elem_of_nil in Hc.
  - reflexivity.
  - reflexivity.
  - reflexivity.
  - reflexivity.
  - vm_compute. reflexivity.
  - reflexivity.
Defined.

(** ** The list of conversations *)

#[local] Instance moreRecent_total : Total moreRecent.
Proof. intros a b. unfold moreRecent. lia. Qed.

#[local] Instance moreRecent_trans : Transitive moreRecent.
Proof. intros a b c. unfold moreRecent. lia. Qed.

Lemma listConversations_run renv reqUser s :
  restRejects renv ConversationList = false →
  listConversations renv reqUser s
  = {| result := Some (ListJson (summary s (user_id reqUser)
                                   <$> conversationsOf s (user_id reqUser)));
       final := s; emitted := [] |}.
Proof.
  intros Hq. unfold listConversations, tryCatch, bind, awaitRest, gets, ret.
  by rewrite Hq.
Qed.

(** X19. When the query answers, the list of conversations of a user has
    exactly the conversations the user is a participant of, each once, the
    one with the most recent last message first; the unread count of every
    entry is 0, whatever the read flags of its messages.  The request
    writes nothing and emits nothing. *)
Theorem conversation_list_is_the_users renv reqUser s :
  restRejects renv ConversationList = false →
  let r := listConversations renv reqUser s in
  final r = s ∧ emitted r = []
  ∧ ∃ l, result r = Some (ListJson l)
         ∧ cs_id <$> l
           ≡ₚ conv_id <$> filter (λ c, user_id reqUser ∈ participants c)
                                 (conversations s)
         ∧ StronglySorted listedBefore l
         ∧ Forall (λ e, cs_unreadCount e = 0%nat) l.
Proof.
  intros Hq r. subst r. rewrite (listConversations_run renv reqUser s Hq).
  simpl. split_and!; try done.
  eexists. split; [done|]. split_and!.
  - rewrite <- list_fmap_compose. unfold conversationsOf.
    rewrite (list_fmap_ext (cs_id ∘ summary s (user_id reqUser)) conv_id) by done.
    by rewrite merge_sort_Permutation.
  - apply (StronglySorted_fmap _ moreRecent); [done|].
    apply StronglySorted_merge_sort; apply _.
  - by apply Forall_fmap, Forall_true.
Qed.

(** bob has two unread messages of alice; his list shows the conversation
    with an unread count of 0. *)
Lemma conversation_list_is_the_users_witness :
  (∃ m, m ∈ messages demoChat ∧ sender m ≠ oid "b2" ∧ read m = false)
  ∧ (let r := listConversations (quietRest 11 "0") (mkUser "b2" "bob") demoChat in
     final r = demoChat ∧ emitted r = []
     ∧ ∃ l, result r = Some (ListJson l)
            ∧ cs_id <$> l
              ≡ₚ conv_id <$> filter (λ c, user_id (mkUser "b2" "bob")
                                          ∈ participants c)
                                    (conversations demoChat)
            ∧ StronglySorted listedBefore l
            ∧ Forall (λ e, cs_unreadCount e = 0%nat) l).
Proof.
  split.
  - exists {| msg_id := oid "f1"; conversation := oid "e1"; sender := oid "a1";
              text := str "hi"; read := false; readAt := None; createdAt := 8 |}.
    split_and!; [|vm_compute; discriminate | reflexivity].
    apply (bool_decide_unpack _). vm_compute. exact I.
  - apply (conversation_list_is_the_users (quietRest 11 "0") (mkUser "b2" "bob")
             demoChat).
    reflexivity.
Defined.





(** ** What the middleware accepts *)

(** X21. The middleware accepts a connection only for a token that is a
    string, verifies, and decodes to the id of a user that is stored when
    the socket opens.  The socket it makes has the id it was opened with,
    that user's id and that user's document without the password; and the
    middleware writes and emits nothing. *)
Theorem authentication_accepts_only_stored_users jwt_verify env sid token s socket :
  result (authenticate jwt_verify env sid token s) = Some (Accepted socket) →
  final (authenticate jwt_verify env sid token s) = s
  ∧ emitted (authenticate jwt_verify env sid token s) = []
  ∧ sock_id socket = sid
  ∧ (∃ id, decodesTo jwt_verify token id
           ∧ castObjectId id = Some (userId socket))
  ∧ ∃ u, byId user_id (userId socket) (users s) = Some u
         ∧ user socket = withoutPassword u
         ∧ password (user socket) = None.
Proof.
  rewrite authenticate_run. simpl.
  destruct (truthy token); simpl; [|done].
  destruct token as [| | | |t| |]; try done.
  destruct (jwt_verify t) as [id|] eqn:Hjwt; [|done].
  destruct (castObjectId id) as [i|] eqn:Hcast; [|done].
  destruct (rejects env UserFindById); [done|].
  destruct (byId user_id i (users s)) as [u|] eqn:Hu; [|done].
  intros [= <-]. simpl. split_and!; try done.
  - exists id. split; [by exists t|]. by rewrite (byId_id _ _ _ _ Hu).
  - exists u. by rewrite (byId_id _ _ _ _ Hu).
Qed.

Lemma authentication_accepts_only_stored_users_witness :
  (∃ id, decodesTo demoVerify (tokenOf "c3") id
         ∧ castObjectId id = Some (userId carolSocket))
  ∧ ∃ u, byId user_id (userId carolSocket) (users demo) = Some u
         ∧ user carolSocket = withoutPassword u
         ∧ password (user carolSocket) = None.
Proof.
  destruct (authentication_accepts_only_stored_users demoVerify
              (quietEnv 9 "0") (str "s3") (tokenOf "c3") demo carolSocket)
    as (_ & _ & _ & Hd & Hu).
  - vm_compute. reflexivity.
  - split; [exact Hd | exact Hu].
Defined.

(** ** Signals *)

(** X22. The typing signal and the read receipt are never echoed: whatever
    the payload, the store and the state, no event a typing or a mark-read
    emits has the socket that sent it among its recipients. *)
Theorem signals_are_not_echoed env socket typed marked s e :
  e ∈ emitted (typing socket typed s)
  ∨ e ∈ emitted (markReadHandler env socket marked s) →
  ∀ s', sock_id socket ∉ recipients s' (target e).
Proof.
  assert (Hout : ∀ room ev p,
            notEchoedTo (sock_id socket)
              {| target := ToRoomExcept room (sock_id socket);
                 event := ev; payload := p |}).
  { intros room ev p s'. simpl.
    intros [_ Hne]%elem_of_difference. apply Hne. by apply elem_of_singleton. }
  intros [He | He]; revert s e He.
  - change (emitsOnly (notEchoedTo (sock_id socket)) (typing socket typed)).
    unfold typing. emits_tac; apply Hout.
  - change (emitsOnly (notEchoedTo (sock_id socket))
              (markReadHandler env socket marked)).
    unfold markReadHandler, Conversation_findById, Message_updateMany.
    emits_tac; apply Hout.
Qed.

(** alice types in [e1]: the signal is for the room without her socket. *)
Lemma signals_are_not_echoed_witness :
  sock_id someSocket
  ∉ recipients demo (ToRoomExcept (conversationRoom (oid "e1")) (str "s1")).
Proof.
  refine (signals_are_not_echoed (quietEnv 8 "0") someSocket
           (Some {| td_conversationId := JStr (oid "e1");
                    td_isTyping := JBool true |})
           None demo
           {| target := ToRoomExcept (conversationRoom (oid "e1")) (str "s1");
              event := "user-typing";
              payload := PTyping (oid "a1") (str "alice") (JBool true) |}
           _ demo).
  left. apply (bool_decide_unpack _). vm_compute. exact I.
Defined.
